(** * token-list: the registry view, its enrichment and the add-token form

    A shallow embedding of [src/App.tsx] (getTokenData, the form's onSubmit
    handler, the notification state and its timers) and of the balance cell
    of [src/Token.tsx].

    JavaScript values are modelled as the code uses them: [number] is IEEE
    binary64 (Rocq's primitive floats), [undefined]/[null] are [None], a
    promise settles to [Resolved v] or [Rejected e], and every [await] is a
    suspension point that an explicit schedule resumes. *)

From Stdlib Require Import ZArith List String Bool Lia PrimFloat.
From stdpp Require Import base list strings gmap.
Import ListNotations.

Open Scope string_scope.

(** ** JavaScript runtime values *)

Module JS.

(** IEEE binary64, the only numeric type of the source. *)
Definition number : Set := float.

(** ToBoolean on a number: [+0], [-0] and [NaN] are falsy. *)
Definition truthy_number (x : number) : bool :=
  negb (PrimFloat.eqb x 0%float) && PrimFloat.eqb x x.

(** ToBoolean on a string: only the empty string is falsy. *)
Definition truthy_string (s : string) : bool :=
  negb (String.eqb s "").

(** An [Error] object; the handler only ever reads its [message]. *)
Record Error : Type := mkError { message : string }.

(** How a promise settles. *)
Inductive Settled (A : Type) : Type :=
| Resolved (value : A)
| Rejected (reason : Error).
Arguments Resolved {A} value.
Arguments Rejected {A} reason.

(** The values [JSON.parse] can produce.  An object is its own-property map
    (a later duplicate key has already replaced an earlier one). *)
#[warnings="-register-all"]
Inductive JSON : Type :=
| JNull
| JBool (b : bool)
| JNumber (x : number)
| JString (s : string)
| JArray (items : list JSON)
| JObject (props : gmap string JSON).

(** ToBoolean on a parsed value. *)
Definition truthy (v : JSON) : bool :=
  match v with
  | JNull => false
  | JBool b => b
  | JNumber x => truthy_number x
  | JString s => truthy_string s
  | JArray _ => true
  | JObject _ => true
  end.

(** [v.key] for a value that is neither [null] nor [undefined], for the two
    keys the source reads ("kind" and "ExecutionError"): only an object can
    own them, primitives and arrays answer [undefined] ([None]). *)
Definition get (key : string) (v : JSON) : option JSON :=
  match v with
  | JObject props => props !! key
  | _ => None
  end.

(** [v?.key] where [v] may already be [undefined]: [null] and [undefined]
    short-circuit to [undefined]. *)
Definition opt_get (key : string) (v : option JSON) : option JSON :=
  match v with
  | None => None
  | Some JNull => None
  | Some w => get key w
  end.

(** [String.prototype.includes]: [needle] occurs somewhere in [hay]. *)
Fixpoint includes (needle hay : string) : bool :=
  String.prefix needle hay
  || match hay with
     | EmptyString => false
     | String _ rest => includes needle rest
     end.

(** SameValueZero of a parsed value against a string. *)
Definition is_string (s : string) (v : JSON) : bool :=
  match v with
  | JString t => String.eqb s t
  | _ => false
  end.

(** [v.includes(needle)] as a method call on a truthy parsed value: strings
    and arrays have the method; on anything else the call throws a TypeError
    ([None]). *)
Definition call_includes (v : JSON) (needle : string) : option bool :=
  match v with
  | JString s => Some (includes needle s)
  | JArray items => Some (existsb (is_string needle) items)
  | _ => None
  end.

End JS.
Import JS.

(** ** Token.tsx *)

Module Token.

Record FungibleTokenMetadata : Type := mkMetadata {
  spec : string;
  name : string;
  symbol : string;
  icon : option string;
  reference : option string;
  reference_hash : option string;
  decimals : number;
}.

(** [TokenData] of App.tsx, the props of the [Token] component. *)
Record TokenData : Type := mkTokenData {
  accountId : string;
  balance : option number;
  metadata : FungibleTokenMetadata;
}.

(** What a JSX expression slot shows: a text or a number. *)
Inductive Rendered : Type :=
| Text (s : string)
| Num (x : number).

(** [balance ? e1 : e2] tests ToBoolean of a [number | null]. *)
Definition truthy_balance (balance : option number) : bool :=
  match balance with
  | Some b => truthy_number b
  | None => false
  end.

(** [balance ?? 0]. *)
Definition nullish_or (balance : option number) (dflt : number) : number :=
  match balance with
  | Some b => b
  | None => dflt
  end.

Section BalanceCell.

(** The [**] operator; ECMAScript leaves its result implementation-approximated,
    so it is a parameter here. *)
Variable pow : number -> number -> number.

(** Token.tsx line 59:
    [{balance ? (balance ?? 0) / 10 ** metadata.decimals : "-"}]. *)
Definition balance_cell (balance : option number) (md : FungibleTokenMetadata)
  : Rendered :=
  if truthy_balance balance
  then Num (PrimFloat.div (nullish_or balance 0%float) (pow 10%float (decimals md)))
  else Text "-".

End BalanceCell.

End Token.
Import Token.

(** ** The remote capability *)

Module Remote.

(** The second argument object of [viewFunction], when there is one. *)
Inductive Args : Type :=
| NoArgs
| AccountIdArg (account_id : option string).

(** A remote call as it leaves the client, in the order of issue. *)
Inductive Call : Type :=
| Call_get_tokens (from_index limit : Z)
| Call_add_token (token : string)
| Call_account (tokenAccountId : string)
| Call_viewFunction (contractId method : string) (args : Args).

(** What the remote side answers to each call: [window.contract] and
    [window.walletConnection._near] as the client sees them. *)
Record t : Type := mk {
  get_tokens : Z -> Z -> Settled (list string);
  account : string -> Settled unit;
  ft_balance_of : string -> option string -> Settled (option number);
  ft_metadata : string -> Settled FungibleTokenMetadata;
}.

Definition is_balance_call (c : Call) : bool :=
  match c with
  | Call_viewFunction _ method _ => String.eqb method "ft_balance_of"
  | _ => false
  end.

End Remote.
Import Remote.

(** ** getTokenData *)

Module Enricher.

(** Where one invocation of the mapper callback (App.tsx lines 26-44) is
    suspended. *)
Inductive Mapper : Type :=
| AwaitAccount
| AwaitBalance
| AwaitMetadata (balance : option number)
| Fulfilled (data : TokenData)
| Failed (e : Error).

Definition is_settled (m : Mapper) : bool :=
  match m with
  | Fulfilled _ | Failed _ => true
  | _ => false
  end.

(** p-map's bookkeeping for one call with the default options
    (concurrency = Infinity, stopOnError = true): the mapper invocations by
    index, the [result] array written by index, the [resolvingCount] and
    [isRejected] variables and the promise it returned. *)
Record PMap : Type := mkPMap {
  mappers : list (string * Mapper);
  result : list (option TokenData);
  resolvingCount : nat;
  isRejected : bool;
  promise : option (Settled (list (option TokenData)));
}.

(** [arr[i] = v] on a JavaScript array: writing past the end extends the
    array and leaves holes ([None]) in between. *)
Definition array_set {A : Type} (i : nat) (v : A) (arr : list (option A))
  : list (option A) :=
  if decide (i < length arr)
  then <[i := Some v]> arr
  else arr ++ replicate (i - length arr) None ++ [Some v].

(** [arr[i]] read back: a hole and an index past the end are [undefined]. *)
Definition array_get {A : Type} (i : nat) (arr : list (option A)) : option A :=
  mjoin (arr !! i).

(** Settling a promise that has already settled does nothing. *)
Definition settle (v : Settled (list (option TokenData))) (p : PMap) : PMap :=
  match promise p with
  | Some _ => p
  | None => mkPMap (mappers p) (result p) (resolvingCount p) (isRejected p) (Some v)
  end.

(** p-map's [next()] once the iterator is exhausted. *)
Definition next (p : PMap) : PMap :=
  if isRejected p then p
  else if Nat.eqb (resolvingCount p) 0 then settle (Resolved (result p)) p
  else p.

(** What happens in p-map when the mapper invocation at [i] returned [d]:
    [result[index] = d; resolvingCount--; next()]. *)
Definition on_fulfilled (i : nat) (d : TokenData) (p : PMap) : PMap :=
  next (mkPMap (mappers p) (array_set i d (result p))
               (Nat.pred (resolvingCount p)) (isRejected p) (promise p)).

(** ... and when it threw: [isRejected = true; reject(error)]. *)
Definition on_rejected (e : Error) (p : PMap) : PMap :=
  settle (Rejected e) (mkPMap (mappers p) (result p) (resolvingCount p) true (promise p)).

Definition set_mapper (i : nat) (idm : string * Mapper) (p : PMap) : PMap :=
  mkPMap (<[i := idm]> (mappers p)) (result p) (resolvingCount p)
         (isRejected p) (promise p).

(** [string | undefined] in a condition. *)
Definition truthy_param (accountId : option string) : bool :=
  match accountId with
  | Some s => truthy_string s
  | None => false
  end.

(** One invocation of [getTokenData]: its [accountId] argument, where it
    stands, and the remote calls it has issued so far. *)
Inductive Phase : Type :=
| AwaitList
| ListRejected (e : Error)
| Mapping (p : PMap).

Record Sync : Type := mkSync {
  arg : option string;
  phase : Phase;
  calls : list Call;
}.

Section GetTokenData.

Variable remote : Remote.t.

(** The global [window.accountId]; no code under src/ assigns it after
    start-up, so it is one value for the whole run. *)
Variable window_accountId : option string.

(** The mapper callback resumed at its pending [await] for [tokenAccountId]:
    the state it reaches and the calls it issues on the way.
    [accountId_param] is the [accountId] parameter of the enclosing
    [getTokenData]. *)
Definition mapper_resume (accountId_param : option string)
  (tokenAccountId : string) (m : Mapper) : Mapper * list Call :=
  match m with
  | AwaitAccount =>
      match account remote tokenAccountId with
      | Rejected e => (Failed e, [])
      | Resolved _ =>
          if truthy_param accountId_param
          then (AwaitBalance,
                [Call_viewFunction tokenAccountId "ft_balance_of"
                   (AccountIdArg window_accountId)])
          else (AwaitMetadata None,
                [Call_viewFunction tokenAccountId "ft_metadata" NoArgs])
      end
  | AwaitBalance =>
      match ft_balance_of remote tokenAccountId window_accountId with
      | Rejected e => (Failed e, [])
      | Resolved b =>
          (AwaitMetadata b,
           [Call_viewFunction tokenAccountId "ft_metadata" NoArgs])
      end
  | AwaitMetadata b =>
      match ft_metadata remote tokenAccountId with
      | Rejected e => (Failed e, [])
      | Resolved md => (Fulfilled (mkTokenData tokenAccountId b md), [])
      end
  | Fulfilled _ | Failed _ => (m, [])
  end.

(** [pMap(tokenAccountIds, mapper)]: every mapper invocation starts, in
    index order, and runs up to its first [await]; the loop's last [next()]
    finds the iterator exhausted. *)
Definition pMap (tokenAccountIds : list string) : PMap * list Call :=
  (next (mkPMap (map (fun id => (id, AwaitAccount)) tokenAccountIds) []
                (length tokenAccountIds) false None),
   map Call_account tokenAccountIds).

(** The pending [await] of the mapper invocation at index [i] settles. *)
Definition pMap_settle (accountId_param : option string) (i : nat) (p : PMap)
  : PMap * list Call :=
  match mappers p !! i with
  | None => (p, [])
  | Some (id, m) =>
      if is_settled m then (p, [])
      else
        let '(m', cs) := mapper_resume accountId_param id m in
        let p1 := set_mapper i (id, m') p in
        (match m' with
         | Fulfilled d => on_fulfilled i d p1
         | Failed e => on_rejected e p1
         | _ => p1
         end, cs)
  end.

(** [getTokenData(accountId)] up to its first [await]
    (App.tsx lines 22-25). *)
Definition getTokenData (accountId_param : option string) : Sync :=
  mkSync accountId_param AwaitList [Call_get_tokens 0 100].

(** Which pending promise settles next. *)
Inductive Tick : Type :=
| ListSettles
| LookupSettles (index : nat).

Definition step (s : Sync) (t : Tick) : Sync :=
  match t, phase s with
  | ListSettles, AwaitList =>
      match get_tokens remote 0 100 with
      | Rejected e => mkSync (arg s) (ListRejected e) (calls s)
      | Resolved tokenAccountIds =>
          let '(p, cs) := pMap tokenAccountIds in
          mkSync (arg s) (Mapping p) (calls s ++ cs)
      end
  | LookupSettles i, Mapping p =>
      let '(p', cs) := pMap_settle (arg s) i p in
      mkSync (arg s) (Mapping p') (calls s ++ cs)
  | _, _ => s
  end.

Definition run (sched : list Tick) (s : Sync) : Sync :=
  fold_left step sched s.

(** The promise [getTokenData] returned. *)
Definition outcome (s : Sync) : option (Settled (list (option TokenData))) :=
  match phase s with
  | AwaitList => None
  | ListRejected e => Some (Rejected e)
  | Mapping p => promise p
  end.

End GetTokenData.

End Enricher.
Import Enricher.

(** ** What a run of getTokenData maintains

    The vocabulary of the statements about [getTokenData]: what each mapper
    invocation has established where it stands, what p-map's bookkeeping
    satisfies after any number of settlements, and which calls can be in
    the log. *)

Module Invariant.

Section Vocabulary.

Variable remote : Remote.t.
Variable window_accountId : option string.
Variable accountId_param : option string.

(** The mapper invocation has returned its record. *)
Definition is_fulfilled (m : Mapper) : bool :=
  match m with
  | Fulfilled _ => true
  | _ => false
  end.

Definition weight (idm : string * Mapper) : nat :=
  if is_fulfilled (snd idm) then 0 else 1.

(** The number of mapper invocations that have not returned: what
    [resolvingCount] is meant to hold. *)
Fixpoint pending (ms : list (string * Mapper)) : nat :=
  match ms with
  | [] => 0
  | idm :: rest => weight idm + pending rest
  end.

(** The balance the mapper ends up with for [id], when it can get one. *)
Definition expected_balance (id : string) : option (option number) :=
  if truthy_param accountId_param
  then match ft_balance_of remote id window_accountId with
       | Resolved b => Some b
       | Rejected _ => None
       end
  else Some None.

(** The record the mapper returns for [id], when its lookups resolve. *)
Definition expected (id : string) : option TokenData :=
  match expected_balance id, ft_metadata remote id with
  | Some b, Resolved md => Some (mkTokenData id b md)
  | _, _ => None
  end.

(** What a mapper invocation for [id] has established where it stands. *)
Definition mapper_ok (id : string) (m : Mapper) : Prop :=
  match m with
  | AwaitAccount => True
  | AwaitBalance => truthy_param accountId_param = true
  | AwaitMetadata b => expected_balance id = Some b
  | Fulfilled d => expected id = Some d
  | Failed _ => True
  end.

(** The record of a mapper invocation that has returned. *)
Definition data_of (idm : string * Mapper) : option TokenData :=
  match snd idm with
  | Fulfilled d => Some d
  | _ => None
  end.

(** One settlement applied to an entry of the [mappers] list. *)
Definition resume_at (idm : string * Mapper) : string * Mapper :=
  (fst idm, fst (mapper_resume remote window_accountId accountId_param (fst idm) (snd idm))).

(** p-map's bookkeeping over the input [ids], after any settlements: the
    mappers stand at the input positions, [result] holds exactly the records
    returned so far, each at its mapper's index, [resolvingCount] counts the
    mappers that have not returned, and the promise is resolved exactly when
    that count reached zero without a rejection. *)
Record pmap_inv (ids : list string) (p : PMap) : Prop := mk_pmap_inv {
  inv_ids : forall i, fst <$> (mappers p !! i) = ids !! i;
  inv_ok : forall i id m, mappers p !! i = Some (id, m) -> mapper_ok id m;
  inv_result : forall i, array_get i (result p) = (mappers p !! i) ≫= data_of;
  inv_result_length : length (result p) <= length ids;
  inv_count : resolvingCount p = pending (mappers p);
  inv_promise :
    match promise p with
    | Some (Resolved arr) =>
        arr = result p /\ resolvingCount p = 0 /\ isRejected p = false
    | Some (Rejected _) => isRejected p = true
    | None => isRejected p = false /\ resolvingCount p <> 0
    end;
  inv_rejected :
    isRejected p = true ->
    exists i id e, mappers p !! i = Some (id, Failed e);
}.

(** The continuation p-map runs once the resumed mapper stands at [m']. *)
Definition after (i : nat) (m' : Mapper) (p1 : PMap) : PMap :=
  match m' with
  | Fulfilled d => on_fulfilled i d p1
  | Failed e => on_rejected e p1
  | _ => p1
  end.

(** The two lookups of App.tsx lines 31-33 and 35-38, as calls. *)
Definition balance_call (id : string) : Call :=
  Call_viewFunction id "ft_balance_of" (AccountIdArg window_accountId).

Definition metadata_call (id : string) : Call :=
  Call_viewFunction id "ft_metadata" NoArgs.

(** The lookup a mapper invocation is waiting for, or has got its answer
    from, is in the log. *)
Definition logged (log : list Call) (id : string) (m : Mapper) : Prop :=
  match m with
  | AwaitBalance => In (balance_call id) log
  | AwaitMetadata _ | Fulfilled _ => In (metadata_call id) log
  | AwaitAccount | Failed _ => True
  end.

(** Every call [getTokenData] can issue: the list request with its fixed
    page, account handles, balance lookups (only with a truthy parameter, and
    always for the global identity) and metadata lookups (only once the
    balance is there or was skipped). *)
Definition call_ok (c : Call) : Prop :=
  match c with
  | Call_get_tokens from_index limit => from_index = 0%Z /\ limit = 100%Z
  | Call_add_token _ => False
  | Call_account _ => True
  | Call_viewFunction id method args =>
      (method = "ft_balance_of" /\ args = AccountIdArg window_accountId
       /\ truthy_param accountId_param = true)
      \/ (method = "ft_metadata" /\ args = NoArgs
          /\ exists b, expected_balance id = Some b)
  end.

(** One invocation of [getTokenData(accountId_param)], after any schedule. *)
Record sync_inv (s : Sync) : Prop := mk_sync_inv {
  sinv_arg : arg s = accountId_param;
  sinv_phase :
    match phase s with
    | Mapping p =>
        exists ids,
          get_tokens remote 0 100 = Resolved ids
          /\ pmap_inv ids p
          /\ forall i id m, mappers p !! i = Some (id, m) -> logged (calls s) id m
    | _ => True
    end;
  sinv_calls : Forall call_ok (calls s);
  sinv_order :
    forall id, In (metadata_call id) (calls s) ->
               truthy_param accountId_param = true ->
               In (balance_call id) (calls s);
}.

(** [r] carries what the remote side answers for its own identifier. *)
Definition enriched_from_remote (r : TokenData) : Prop :=
  ft_metadata remote (accountId r) = Resolved (metadata r)
  /\ (if truthy_param accountId_param
      then ft_balance_of remote (accountId r) window_accountId = Resolved (balance r)
      else balance r = None).

(** How far a mapper invocation has come: the awaits behind it. *)
Definition rank (m : Mapper) : nat :=
  match m with
  | AwaitAccount => 0
  | AwaitBalance => 1
  | AwaitMetadata _ => 2
  | Fulfilled _ | Failed _ => 3
  end.

Definition is_failed (m : Mapper) : bool :=
  match m with
  | Failed _ => true
  | _ => false
  end.

(** How often the schedule lets a lookup of the mapper at [i] settle. *)
Fixpoint settles_of (i : nat) (ticks : list Tick) : nat :=
  match ticks with
  | [] => 0
  | LookupSettles j :: rest => (if Nat.eqb i j then 1 else 0) + settles_of i rest
  | ListSettles :: rest => settles_of i rest
  end.

(** Every lookup [getTokenData] can make for [ids] resolves. *)
Definition lookups_resolve (ids : list string) : Prop :=
  forall id, In id ids ->
    (exists u, account remote id = Resolved u)
    /\ (truthy_param accountId_param = true ->
        exists b, ft_balance_of remote id window_accountId = Resolved b)
    /\ (exists md, ft_metadata remote id = Resolved md).

End Vocabulary.

End Invariant.
Import Invariant.

(** ** The App component: form, notification and timers *)

Module App.

(** How the async [onSubmit] handler ends. *)
Inductive Completion : Type :=
| Returns
| Throws (e : Error).

(** The component's React state, the two form elements the handler touches,
    the clock with the pending [setTimeout] callbacks, the number of
    [onSubmit] invocations suspended at their [await], and what the handler
    did to the outside: calls on [window.contract], [alert]s, started
    [getTokenData] invocations and errors nobody caught.

    Both [setTimeout] calls of the source pass the same callback (clear the
    notification), so a pending timer is its due time in milliseconds. *)
Record State : Type := mkState {
  tokens : list (option TokenData);
  buttonDisabled : bool;
  showNotification : bool;
  isFailureNotification : bool;
  notificationMessage : string;
  fieldset_disabled : bool;
  token_value : string;
  now : Z;
  timers : list Z;
  submitting : nat;
  contract_calls : list Call;
  alerts : list string;
  syncs : list Sync;
  uncaught : list Error;
}.

Definition setTokens (v : list (option TokenData)) (st : State) : State :=
  mkState v (buttonDisabled st) (showNotification st)
    (isFailureNotification st) (notificationMessage st) (fieldset_disabled st)
    (token_value st) (now st) (timers st) (submitting st) (contract_calls st)
    (alerts st) (syncs st) (uncaught st).

Definition setButtonDisabled (v : bool) (st : State) : State :=
  mkState (tokens st) v (showNotification st)
    (isFailureNotification st) (notificationMessage st) (fieldset_disabled st)
    (token_value st) (now st) (timers st) (submitting st) (contract_calls st)
    (alerts st) (syncs st) (uncaught st).

Definition setShowNotification (v : bool) (st : State) : State :=
  mkState (tokens st) (buttonDisabled st) v
    (isFailureNotification st) (notificationMessage st) (fieldset_disabled st)
    (token_value st) (now st) (timers st) (submitting st) (contract_calls st)
    (alerts st) (syncs st) (uncaught st).

Definition setIsFailureNotification (v : bool) (st : State) : State :=
  mkState (tokens st) (buttonDisabled st) (showNotification st)
    v (notificationMessage st) (fieldset_disabled st)
    (token_value st) (now st) (timers st) (submitting st) (contract_calls st)
    (alerts st) (syncs st) (uncaught st).

Definition setNotificationMessage (v : string) (st : State) : State :=
  mkState (tokens st) (buttonDisabled st) (showNotification st)
    (isFailureNotification st) v (fieldset_disabled st)
    (token_value st) (now st) (timers st) (submitting st) (contract_calls st)
    (alerts st) (syncs st) (uncaught st).

Definition set_fieldset_disabled (v : bool) (st : State) : State :=
  mkState (tokens st) (buttonDisabled st) (showNotification st)
    (isFailureNotification st) (notificationMessage st) v
    (token_value st) (now st) (timers st) (submitting st) (contract_calls st)
    (alerts st) (syncs st) (uncaught st).

Definition set_token_value (v : string) (st : State) : State :=
  mkState (tokens st) (buttonDisabled st) (showNotification st)
    (isFailureNotification st) (notificationMessage st) (fieldset_disabled st)
    v (now st) (timers st) (submitting st) (contract_calls st)
    (alerts st) (syncs st) (uncaught st).

Definition set_clock (t : Z) (pending : list Z) (st : State) : State :=
  mkState (tokens st) (buttonDisabled st) (showNotification st)
    (isFailureNotification st) (notificationMessage st) (fieldset_disabled st)
    (token_value st) t pending (submitting st) (contract_calls st)
    (alerts st) (syncs st) (uncaught st).

Definition set_submitting (n : nat) (st : State) : State :=
  mkState (tokens st) (buttonDisabled st) (showNotification st)
    (isFailureNotification st) (notificationMessage st) (fieldset_disabled st)
    (token_value st) (now st) (timers st) n (contract_calls st)
    (alerts st) (syncs st) (uncaught st).

Definition call_contract (c : Call) (st : State) : State :=
  mkState (tokens st) (buttonDisabled st) (showNotification st)
    (isFailureNotification st) (notificationMessage st) (fieldset_disabled st)
    (token_value st) (now st) (timers st) (submitting st)
    (contract_calls st ++ [c]) (alerts st) (syncs st) (uncaught st).

Definition alert (msg : string) (st : State) : State :=
  mkState (tokens st) (buttonDisabled st) (showNotification st)
    (isFailureNotification st) (notificationMessage st) (fieldset_disabled st)
    (token_value st) (now st) (timers st) (submitting st) (contract_calls st)
    (alerts st ++ [msg]) (syncs st) (uncaught st).

Definition set_syncs (v : list Sync) (st : State) : State :=
  mkState (tokens st) (buttonDisabled st) (showNotification st)
    (isFailureNotification st) (notificationMessage st) (fieldset_disabled st)
    (token_value st) (now st) (timers st) (submitting st) (contract_calls st)
    (alerts st) v (uncaught st).

Definition raise_uncaught (e : Error) (st : State) : State :=
  mkState (tokens st) (buttonDisabled st) (showNotification st)
    (isFailureNotification st) (notificationMessage st) (fieldset_disabled st)
    (token_value st) (now st) (timers st) (submitting st) (contract_calls st)
    (alerts st) (syncs st) (uncaught st ++ [e]).

(** The callback of both timers (lines 97-101 and 120-124). *)
Definition clear_notification (st : State) : State :=
  setShowNotification false
    (setIsFailureNotification false (setNotificationMessage "" st)).

(** [setTimeout(callback, 11000)]. *)
Definition setTimeout_clear (st : State) : State :=
  set_clock (now st) (timers st ++ [(now st + 11000)%Z]) st.

(** The clock reaches [t]: every pending timer that is due runs its
    callback and is gone. *)
Definition elapse (t : Z) (st : State) : State :=
  let due := List.filter (fun d => (d <=? t)%Z) (timers st) in
  let later := List.filter (fun d => negb (d <=? t)%Z) (timers st) in
  set_clock (Z.max (now st) t) later
    (fold_left (fun s _ => clear_notification s) due st).

(** The [Notification] element of the render (lines 172-177), as
    [(message, failure)], when there is one. *)
Definition rendered_notification (st : State) : option (string * bool) :=
  if showNotification st
  then Some (notificationMessage st, isFailureNotification st)
  else None.

(** The input's [onChange] (line 156), with the element's new value. *)
Definition onChange (value : string) (st : State) : State :=
  setButtonDisabled (Nat.eqb (String.length value) 0) (set_token_value value st).

Definition needle : string :=
  "Unable to get result of token account verification".

Definition not_a_token_message : string :=
  "The provided account ID does not contain a fungible token contract".

Definition alert_message : string :=
  "Something went wrong! " ++
  "Maybe you need to sign out and back in? " ++
  "Check your browser console for more info.".

(** Lines 105-110: the value of [isNotTokenAccount] as a condition, or
    [None] when evaluating it throws. *)
Definition isNotTokenAccount (jsonError : JSON) : option bool :=
  if negb (truthy jsonError) then Some false
  else
    match opt_get "ExecutionError" (opt_get "kind" (Some jsonError)) with
    | None => Some false
    | Some executionError =>
        if negb (truthy executionError) then Some false
        else call_includes executionError needle
    end.

Section Handlers.

(** [JSON.parse], [None] when it throws a SyntaxError. *)
Variable JSON_parse : string -> option JSON.

(** The global [window.accountId]. *)
Variable window_accountId : option string.

Variable remote : Remote.t.

(** After mount: the [useState] defaults and the effect of line 57. *)
Definition mount : State :=
  mkState [] true false false "" false "" 0 [] 0 [] [] [getTokenData window_accountId] [].

(** The [finally] block (lines 134-138). *)
Definition finally_block (st : State) : State :=
  let st1 := set_fieldset_disabled false st in
  set_syncs (syncs st1 ++ [getTokenData window_accountId]) st1.

(** [onSubmit] up to its [await] (lines 80-91). *)
Definition onSubmit_begin (st : State) : State :=
  let st1 := set_fieldset_disabled true st in
  set_submitting (S (submitting st1))
    (call_contract (Call_add_token (token_value st1)) st1).

(** The [try] block after the [await] (lines 92-101). *)
Definition on_added (st : State) : State :=
  let st1 :=
    setNotificationMessage ("Added " ++ token_value st ++ " to the token list") st in
  setTimeout_clear (setShowNotification true st1).

(** Lines 111-125, the branch taken when [isNotTokenAccount] is truthy. *)
Definition on_not_a_token (st : State) : State :=
  setTimeout_clear
    (setShowNotification true
       (setIsFailureNotification true
          (setNotificationMessage not_a_token_message st))).

(** The [catch (e)] block (lines 102-133), before [finally]. *)
Definition catch_block (e : Error) (st : State) : State * Completion :=
  match JSON_parse (message e) with
  | None => (alert alert_message st, Throws e)
  | Some jsonError =>
      match isNotTokenAccount jsonError with
      | None => (alert alert_message st, Throws e)
      | Some true => (on_not_a_token st, Returns)
      | Some false => (st, Returns)
      end
  end.

(** [onSubmit] from the moment [add_token] settles to its end
    (lines 92-138). *)
Definition onSubmit_resume (o : Settled bool) (st : State)
  : State * Completion :=
  match o with
  | Resolved _ => (finally_block (on_added st), Returns)
  | Rejected e =>
      let '(st1, c) := catch_block e st in
      (finally_block st1, c)
  end.

(** A started [getTokenData] moves on; [.then(setTokens)] runs when its
    promise resolves and nothing handles a rejection. *)
Definition sync_tick (k : nat) (t : Tick) (st : State) : State :=
  match syncs st !! k with
  | None => st
  | Some s =>
      let s' := Enricher.step remote window_accountId s t in
      let st1 := set_syncs (<[k := s']> (syncs st)) st in
      match outcome s, outcome s' with
      | None, Some (Resolved data) => setTokens data st1
      | None, Some (Rejected e) => raise_uncaught e st1
      | _, _ => st1
      end
  end.

(** What can happen to the mounted component. *)
Inductive Event : Type :=
| Change (value : string)
| Submit
| AddSettles (o : Settled bool)
| Elapse (t : Z)
| SyncTick (k : nat) (t : Tick).

Definition handle (st : State) (ev : Event) : State :=
  match ev with
  | Change value => onChange value st
  | Submit => onSubmit_begin st
  | AddSettles o =>
      match submitting st with
      | O => st
      | S n =>
          let '(st1, c) := onSubmit_resume o (set_submitting n st) in
          match c with
          | Returns => st1
          | Throws e => raise_uncaught e st1
          end
      end
  | Elapse t => elapse t st
  | SyncTick k t => sync_tick k t st
  end.

Definition run (evs : list Event) (st : State) : State :=
  fold_left handle evs st.

End Handlers.

End App.

(** ** Sample inputs *)

Module Samples.

Definition dquote : string :=
  String (Ascii.Ascii false true false false false true false false) EmptyString.

(** [s] between double quotes, as it stands in a JSON text. *)
Definition quoted (s : string) : string := dquote ++ s ++ dquote.

(** A JSON text of the shape [{"kind":{"ExecutionError":"<reason>"}}]. *)
Definition execution_error_text (reason : string) : string :=
  "{" ++ quoted "kind" ++ ":{" ++ quoted "ExecutionError" ++ ":" ++
  quoted reason ++ "}}".

(** ... and the value [JSON.parse] makes of it. *)
Definition execution_error_value (reason : string) : JSON :=
  JObject {[ "kind" := JObject {[ "ExecutionError" := JString reason ]} ]}.

Definition not_a_token_reason : string :=
  "Smart contract panicked: Unable to get result of token account verification".

Definition out_of_gas_reason : string := "Exceeded the prepaid gas.".

(** A stand-in for [JSON.parse] that is right on the three messages used
    below: the two JSON texts parse to their values and the plain sentence
    [wallet_message] is a SyntaxError.  It is not consulted on any other
    string. *)
Definition JSON_parse (s : string) : option JSON :=
  if String.eqb s (execution_error_text not_a_token_reason)
  then Some (execution_error_value not_a_token_reason)
  else if String.eqb s (execution_error_text out_of_gas_reason)
  then Some (execution_error_value out_of_gas_reason)
  else None.

Definition wallet_message : string := "Cannot find matching key for transaction".

(** Two signed-in identities. *)
Definition alice : option string := Some "alice.test".
Definition bob : option string := Some "bob.test".

Definition usdc_metadata : FungibleTokenMetadata :=
  mkMetadata "ft-1.0.0" "USD Coin" "USDC" None None None 6%float.

(** A registry of two tokens whose lookups all resolve. *)
Definition remote : Remote.t :=
  Remote.mk
    (fun _ _ => Resolved ["a.test"; "b.test"])
    (fun _ => Resolved tt)
    (fun _ _ => Resolved (Some 1500000%float))
    (fun _ => Resolved usdc_metadata).

(** The same registry, except that every balance lookup rejects. *)
Definition remote_without_balances : Remote.t :=
  Remote.mk
    (fun _ _ => Resolved ["a.test"; "b.test"])
    (fun _ => Resolved tt)
    (fun _ _ => Rejected (mkError "ft_balance_of: method not found"))
    (fun _ => Resolved usdc_metadata).

(** Two successful submits, the second one 5000 ms after the first. *)
Definition two_submits : App.State :=
  App.run JSON_parse alice remote
    [App.Change "a.test"; App.Submit; App.AddSettles (Resolved true);
     App.Change "b.test"; App.Elapse 5000; App.Submit; App.AddSettles (Resolved true)]
    (App.mount alice).

(** A submit rejected as not-a-token, then, 3000 ms later, a second submit
    up to its [await]. *)
Definition failure_then_submit : App.State :=
  App.run JSON_parse alice remote
    [App.Change "nft.test"; App.Submit;
     App.AddSettles (Rejected (mkError (execution_error_text not_a_token_reason)));
     App.Change "usdc.test"; App.Elapse 3000; App.Submit]
    (App.mount alice).

(** Schedules over the two sample entries: the second entry's lookups all
    settle before the first entry's, and the other way round. *)
Definition second_first : list Tick :=
  [LookupSettles 1; LookupSettles 1; LookupSettles 1;
   LookupSettles 0; LookupSettles 0; LookupSettles 0].

Definition first_second : list Tick :=
  [LookupSettles 0; LookupSettles 0; LookupSettles 0;
   LookupSettles 1; LookupSettles 1; LookupSettles 1].

(** The lookups of the two entries settle in turn, the second entry's
    first; the trailing settlements find nothing pending. *)
Definition interleaved : list Tick :=
  [LookupSettles 1; LookupSettles 0; LookupSettles 1; LookupSettles 0;
   LookupSettles 1; LookupSettles 0; LookupSettles 1; ListSettles].

End Samples.

(** ** What a run of getTokenData leaves in its log *)

Module Trace.

Section Vocabulary.

Variable remote : Remote.t.
Variable window_accountId : option string.
Variable accountId_param : option string.

(** The lookups one entry can still issue once its account handle is
    there: balance and metadata with a viewer, metadata alone without. *)
Definition lookups_per_entry : nat :=
  if truthy_param accountId_param then 2 else 1.

(** The calls a mapper invocation can still issue from where it stands. *)
Definition budget (idm : string * Mapper) : nat :=
  match snd idm with
  | AwaitAccount => lookups_per_entry
  | AwaitBalance => 1
  | AwaitMetadata _ | Fulfilled _ | Failed _ => 0
  end.

(** [c] is one of the two lookups of an entry of [ids]. *)
Definition lookup_of (ids : list string) (c : Call) : Prop :=
  exists id, In id ids
             /\ (c = balance_call window_accountId id \/ c = metadata_call id).

(** [e] is the reason one of the calls made for [id] was rejected with. *)
Definition rejection_for (id : string) (e : Error) : Prop :=
  account remote id = Rejected e
  \/ (truthy_param accountId_param = true
      /\ ft_balance_of remote id window_accountId = Rejected e)
  \/ ft_metadata remote id = Rejected e.

(** What lies behind a mapper invocation for [id]: the awaits it has passed
    resolved, and a failed one failed with the reason of one of its calls. *)
Definition history_ok (id : string) (m : Mapper) : Prop :=
  match m with
  | AwaitAccount => True
  | AwaitBalance =>
      truthy_param accountId_param = true
      /\ exists u, account remote id = Resolved u
  | AwaitMetadata _ | Fulfilled _ => exists u, account remote id = Resolved u
  | Failed e => rejection_for id e
  end.

(** A rejected p-map promise carries the reason of a failed mapper. *)
Definition rejected_by_mapper (p : PMap) : Prop :=
  match promise p with
  | Some (Rejected e) => exists i id, mappers p !! i = Some (id, Failed e)
  | _ => True
  end.

(** Every mapper invocation of [s] has the history it should have, and a
    rejected promise of [s] bears a mapper's reason. *)
Definition histories_ok (s : Sync) : Prop :=
  match phase s with
  | Mapping p =>
      (forall i id m, mappers p !! i = Some (id, m) -> history_ok id m)
      /\ rejected_by_mapper p
  | _ => True
  end.

(** A failed mapper has made p-map set [isRejected]. *)
Definition failures_marked (s : Sync) : Prop :=
  match phase s with
  | Mapping p =>
      forall i id e, mappers p !! i = Some (id, Failed e) -> isRejected p = true
  | _ => True
  end.

(** The log of an invocation: the list request alone while the list is
    awaited or was rejected; after it, the account handles of the page in
    input order, then lookups of entries of the page. *)
Definition log_shape (s : Sync) : Prop :=
  match phase s with
  | Mapping p =>
      exists ids rest,
        get_tokens remote 0 100 = Resolved ids
        /\ calls s = (Call_get_tokens 0 100 :: map Call_account ids ++ rest)%list
        /\ Forall (lookup_of ids) rest
        /\ length rest + list_sum (map budget (mappers p))
           <= length ids * lookups_per_entry
  | _ => calls s = [Call_get_tokens 0 100]
  end.

End Vocabulary.

End Trace.
Import Trace.

(** ** Token.tsx: what a Token element shows *)

Module TokenView.

Definition wrap_icon : string :=
  "https://assets.coingecko.com/coins/images/18280/small/EX4mrWMW_400x400.jpg?1631244046".

(** [String.prototype.startsWith]. *)
Definition startsWith (s prefix : string) : bool := String.prefix prefix s.

(** Lines 19-22 and 46: the [src] of the image, [None] for [undefined]. *)
Definition img_src (accountId : string) (md : FungibleTokenMetadata) : option string :=
  if String.eqb accountId "wrap.testnet" then Some wrap_icon else icon md.

(** Lines 86-102: the [href] of the Website row, [None] when the row is
    not rendered ([metadata.reference?.startsWith("http") && ...]). *)
Definition website (md : FungibleTokenMetadata) : option string :=
  match reference md with
  | Some r => if startsWith r "http" then Some r else None
  | None => None
  end.

(** What one [Token] element shows, given its [isOpen] state. *)
Record View : Type := mkView {
  src : option string;
  title : string;
  cell : Rendered;
  isOpened : bool;
  symbol_row : string;
  decimals_row : number;
  website_row : option string;
}.

Section Render.

Variable pow : number -> number -> number.

Definition render (isOpen : bool) (data : TokenData) : View :=
  mkView (img_src (accountId data) (metadata data))
         (name (metadata data))
         (balance_cell pow (balance data) (metadata data))
         isOpen
         (symbol (metadata data))
         (decimals (metadata data))
         (website (metadata data)).

(** App.tsx lines 168-170: [tokens.map((data) => <Token key=... />)], as
    [(key, element)] pairs; a hole of the array stays a hole. *)
Definition token_list (tokens : list (option TokenData))
  : list (option (string * View)) :=
  map (option_map (fun data => (accountId data, render false data))) tokens.

End Render.

End TokenView.

(** ** The form as the browser drives it *)

Module Form.

(** The events the rendered form lets through: a disabled Add button
    ([disabled={buttonDisabled}], line 160) cannot submit, and a disabled
    fieldset (line 86) disables the input and the button inside it. *)
Definition allows (st : App.State) (ev : App.Event) : bool :=
  match ev with
  | App.Submit => negb (App.buttonDisabled st) && negb (App.fieldset_disabled st)
  | App.Change _ => negb (App.fieldset_disabled st)
  | _ => true
  end.

Section Driven.

Variable JSON_parse : string -> option JSON.
Variable window_accountId : option string.
Variable remote : Remote.t.

(** Every event of [evs] is let through in the state it arrives in. *)
Fixpoint driven (evs : list App.Event) (st : App.State) : bool :=
  match evs with
  | [] => true
  | ev :: rest =>
      allows st ev
      && driven rest (App.handle JSON_parse window_accountId remote st ev)
  end.

End Driven.


End Form.

(** ** What the mounted component maintains *)

Module AppInvariant.

(** Pending timers are due within 11000 ms, a visible notification has a
    timer pending, and a hidden one holds neither message nor flag. *)
Definition notification_ok (st : App.State) : Prop :=
  (forall d, In d (App.timers st) ->
             (App.now st < d)%Z /\ (d <= App.now st + 11000)%Z)
  /\ (App.showNotification st = true -> App.timers st <> [])
  /\ (App.showNotification st = false ->
      App.notificationMessage st = "" /\ App.isFailureNotification st = false).


(** The call is an [add_token] with a non-empty identifier. *)
Definition adds_nonempty (c : Call) : Prop :=
  exists token, c = Call_add_token token /\ token <> "".

(** The form while the browser drives it: the Add button mirrors the
    input, at most one submit is in flight and the fieldset is locked
    exactly while it is, and no empty identifier was submitted. *)
Definition form_ok (st : App.State) : Prop :=
  (App.buttonDisabled st = true <-> App.token_value st = "")
  /\ App.submitting st <= 1
  /\ (App.fieldset_disabled st = true <-> App.submitting st = 1)
  /\ Forall adds_nonempty (App.contract_calls st).

Section Displayed.

Variable remote : Remote.t.
Variable window_accountId : option string.

(** Every started [getTokenData] is a run of [getTokenData(window.accountId)]. *)
Definition syncs_ok (st : App.State) : Prop :=
  forall i s, App.syncs st !! i = Some s ->
    exists sched,
      s = Enricher.run remote window_accountId sched (getTokenData window_accountId).

(** The displayed records: none yet, or one enriched record per
    identifier of the registry page, in its order, without holes. *)
Definition displayed_ok (tokens : list (option TokenData)) : Prop :=
  tokens = []
  \/ exists ids recs,
       get_tokens remote 0 100 = Resolved ids
       /\ tokens = map Some recs
       /\ map accountId recs = ids
       /\ Forall (enriched_from_remote remote window_accountId window_accountId) recs.

End Displayed.

End AppInvariant.
Import AppInvariant.

(** ** index.tsx *)

Module Index.

(** What start-up leaves behind: whether [<App />] was rendered and what
    went to [console.error]. *)
Record Boot : Type := mkBoot {
  rendered : bool;
  console_errors : list Error;
}.

Definition root_not_found : Error :=
  mkError "Unable to find query selector at #root".

(** Lines 26-36: [initContract().then(...).catch(console.error)], given how
    [initContract()] settles and whether [document.querySelector("#root")]
    finds the container. *)
Definition start (init : Settled unit) (container : bool) : Boot :=
  match init with
  | Rejected e => mkBoot false [e]
  | Resolved _ =>
      if container then mkBoot true [] else mkBoot false [root_not_found]
  end.

End Index.

(** ** More sample inputs *)

Module MoreSamples.

(** A registry whose list request is rejected. *)
Definition registry_down : Error := mkError "registry unavailable".

Definition remote_down : Remote.t :=
  Remote.mk
    (fun _ _ => Rejected registry_down)
    (fun _ => Resolved tt)
    (fun _ _ => Resolved None)
    (fun _ => Resolved Samples.usdc_metadata).

(** A registry that lists nothing. *)
Definition remote_empty : Remote.t :=
  Remote.mk
    (fun _ _ => Resolved [])
    (fun _ => Resolved tt)
    (fun _ _ => Resolved None)
    (fun _ => Resolved Samples.usdc_metadata).

(** A stand-in for the [**] operator that is right on [10 ** 6], the only
    power the sample metadata asks for. *)
Definition pow (base exponent : number) : number := 1000000%float.

(** Two submits through the rendered form, each typed, submitted and
    settled in turn. *)
Definition two_submit_events : list App.Event :=
  [App.Change "a.test"; App.Submit; App.AddSettles (Resolved true);
   App.Change "b.test"; App.Elapse 5000; App.Submit; App.AddSettles (Resolved true)].

(** The sync of the mount runs to its end, the second entry first. *)
Definition mount_sync_events : list App.Event :=
  App.SyncTick 0 ListSettles
  :: map (App.SyncTick 0) Samples.second_first.

End MoreSamples.

(** * Properties *)

(** ** The balance cell *)

Section BalanceCellFacts.

Variable pow : number -> number -> number.

Lemma balance_cell_absent (md : FungibleTokenMetadata) :
  balance_cell pow None md = Text "-".
Proof. reflexivity. Qed.

Lemma balance_cell_truthy (b : number) (md : FungibleTokenMetadata) :
  truthy_number b = true ->
  balance_cell pow (Some b) md = Num (PrimFloat.div b (pow 10%float (decimals md))).
Proof.
  intros Hb. unfold balance_cell. cbn [truthy_balance nullish_or].
  rewrite Hb. reflexivity.
Qed.

Lemma balance_cell_falsy (b : number) (md : FungibleTokenMetadata) :
  truthy_number b = false ->
  balance_cell pow (Some b) md = Text "-".
Proof.
  intros Hb. unfold balance_cell. cbn [truthy_balance].
  rewrite Hb. reflexivity.
Qed.

(** C4: the cell tests the truthiness of [balance], not its presence, so a
    present balance of zero is shown as the sentinel "-" for every
    [decimals], exactly like an absent one. *)
Theorem balance_cell_zero_is_sentinel (md : FungibleTokenMetadata) :
  balance_cell pow (Some 0%float) md = Text "-"
  /\ balance_cell pow (Some 0%float) md = balance_cell pow None md.
Proof. split; reflexivity. Qed.

End BalanceCellFacts.

(** ** The form handler *)

Section HandlerFacts.

Import App.

Variable JSON_parse : string -> option JSON.
Variable window_accountId : option string.

(** *** Classification of a rejection *)

Lemma includes_needle_nonempty (s : string) :
  includes needle s = true -> truthy_string s = true.
Proof. destruct s; [discriminate | reflexivity]. Qed.

(** A payload whose [kind.ExecutionError] is a string containing the
    needle makes [isNotTokenAccount] true. *)
Lemma isNotTokenAccount_matching (props kind_props : gmap string JSON) (s : string) :
  props !! "kind" = Some (JObject kind_props) ->
  kind_props !! "ExecutionError" = Some (JString s) ->
  includes needle s = true ->
  isNotTokenAccount (JObject props) = Some true.
Proof.
  intros Hkind Hee Hinc. unfold isNotTokenAccount.
  cbn [truthy negb opt_get get]. rewrite Hkind. cbn [opt_get get].
  rewrite Hee. cbn [truthy call_includes].
  rewrite (includes_needle_nonempty _ Hinc). cbn [negb].
  rewrite Hinc. reflexivity.
Qed.

Lemma rejection_matching (e : Error) (j : JSON) (st : State) :
  JSON_parse (message e) = Some j ->
  isNotTokenAccount j = Some true ->
  onSubmit_resume JSON_parse window_accountId (Rejected e) st
  = (finally_block window_accountId (on_not_a_token st), Returns).
Proof.
  intros Hp Hm. unfold onSubmit_resume, catch_block.
  rewrite Hp, Hm. reflexivity.
Qed.

Lemma rejection_unparseable (e : Error) (st : State) :
  JSON_parse (message e) = None ->
  onSubmit_resume JSON_parse window_accountId (Rejected e) st
  = (finally_block window_accountId (alert alert_message st), Throws e).
Proof.
  intros Hp. unfold onSubmit_resume, catch_block. rewrite Hp. reflexivity.
Qed.

Lemma rejection_type_error (e : Error) (j : JSON) (st : State) :
  JSON_parse (message e) = Some j ->
  isNotTokenAccount j = None ->
  onSubmit_resume JSON_parse window_accountId (Rejected e) st
  = (finally_block window_accountId (alert alert_message st), Throws e).
Proof.
  intros Hp Hm. unfold onSubmit_resume, catch_block.
  rewrite Hp, Hm. reflexivity.
Qed.

(** C1: a rejection whose payload parses but does not match the
    token-verification shape is swallowed: [onSubmit] runs only its
    [finally] block and returns normally, so no alert is shown, the error is
    not re-raised and the notification state is left as it was. *)
Theorem rejection_parsed_unmatched_is_silent (e : Error) (j : JSON) (st : State) :
  JSON_parse (message e) = Some j ->
  isNotTokenAccount j = Some false ->
  let '(st', c) := onSubmit_resume JSON_parse window_accountId (Rejected e) st in
  c = Returns
  /\ alerts st' = alerts st
  /\ uncaught st' = uncaught st
  /\ timers st' = timers st
  /\ rendered_notification st' = rendered_notification st.
Proof.
  intros Hp Hm. unfold onSubmit_resume, catch_block.
  rewrite Hp, Hm. repeat split; reflexivity.
Qed.

(** *** Empty input *)

Lemma length_zero_iff_empty (v : string) :
  Nat.eqb (String.length v) 0 = true <-> v = "".
Proof.
  destruct v; cbn; split; intros H; try reflexivity; discriminate.
Qed.

(** C2 (as amended): the handler does not validate its input.  For every
    value of the input element, empty or not, [onSubmit] locks the fieldset
    and calls [add_token] with exactly that value; the only guard against
    an empty identifier is the Add button, disabled after mount and after
    every change that leaves the input empty. *)
Theorem onSubmit_calls_add_token_unvalidated (st : State) (v : string) :
  contract_calls (onSubmit_begin st)
  = (contract_calls st ++ [Call_add_token (token_value st)])%list
  /\ fieldset_disabled (onSubmit_begin st) = true
  /\ token_value (onChange v st) = v
  /\ (buttonDisabled (onChange v st) = true <-> v = "")
  /\ buttonDisabled (mount window_accountId) = true.
Proof.
  repeat split; try reflexivity.
  - cbn. apply length_zero_iff_empty.
  - cbn. apply length_zero_iff_empty.
Qed.

(** *** Timers *)

Lemma clear_notification_idem (st : State) :
  clear_notification (clear_notification st) = clear_notification st.
Proof. reflexivity. Qed.

Lemma fold_clear_cons (d : Z) (l : list Z) (st : State) :
  fold_left (fun s _ => clear_notification s) (d :: l) st = clear_notification st.
Proof.
  revert st. induction l as [|d' l IH]; intros st; [reflexivity|].
  change (fold_left (fun s _ => clear_notification s) (d :: l) (clear_notification st)
          = clear_notification st).
  rewrite IH. apply clear_notification_idem.
Qed.

Lemma elapse_due (t : Z) (st : State) :
  (exists d, In d (timers st) /\ (d <= t)%Z) ->
  rendered_notification (elapse t st) = None
  /\ notificationMessage (elapse t st) = ""
  /\ isFailureNotification (elapse t st) = false.
Proof.
  intros (d & Hin & Hle). unfold elapse.
  assert (Hd : In d (List.filter (fun d => (d <=? t)%Z) (timers st))).
  { apply filter_In. split; [exact Hin | apply Z.leb_le; exact Hle]. }
  destruct (List.filter (fun d => (d <=? t)%Z) (timers st)) as [|d0 l]; [destruct Hd|].
  rewrite fold_clear_cons. repeat split; reflexivity.
Qed.

Lemma elapse_not_due (t : Z) (st : State) :
  (forall d, In d (timers st) -> (t < d)%Z) ->
  rendered_notification (elapse t st) = rendered_notification st
  /\ timers (elapse t st) = timers st.
Proof.
  intros Hall. unfold elapse.
  assert (Hnone : List.filter (fun d => (d <=? t)%Z) (timers st) = []).
  { induction (timers st) as [|d l IH]; [reflexivity|]. cbn.
    assert (Hd : (t < d)%Z) by (apply Hall; left; reflexivity).
    destruct (Z.leb_spec d t); [lia|]. apply IH. intros d' Hd'. apply Hall. right. exact Hd'. }
  assert (Hall' : List.filter (fun d => negb (d <=? t)%Z) (timers st) = timers st).
  { induction (timers st) as [|d l IH]; [reflexivity|]. cbn.
    assert (Hd : (t < d)%Z) by (apply Hall; left; reflexivity).
    destruct (Z.leb_spec d t); [lia|]. cbn. f_equal. apply IH.
    - intros d' Hd'. apply Hall. right. exact Hd'.
    - cbn in Hnone. destruct (Z.leb_spec d t); [lia | exact Hnone]. }
  rewrite Hnone, Hall'. split; reflexivity.
Qed.

(** C3 (as amended): showing a notification never cancels a pending timer.
    Both branches that show one only add a timer due 11000 ms later and keep
    every timer that was pending; whenever the clock reaches a pending
    timer's due time the notification is cleared, whichever message is up,
    and until the earliest pending timer is due it stays as it is. *)
Theorem show_keeps_pending_timers (st : State) (t : Z) :
  timers (on_added st) = (timers st ++ [(now st + 11000)%Z])%list
  /\ timers (on_not_a_token st) = (timers st ++ [(now st + 11000)%Z])%list
  /\ ((exists d, In d (timers st) /\ (d <= t)%Z) ->
      rendered_notification (elapse t st) = None)
  /\ ((forall d, In d (timers st) -> (t < d)%Z) ->
      rendered_notification (elapse t st) = rendered_notification st).
Proof.
  split; [reflexivity|]. split; [reflexivity|]. split.
  - intros H. apply (elapse_due t st H).
  - intros H. apply (elapse_not_due t st H).
Qed.

(** *** The success branch *)

Lemma success_notification_after_cleared (b : bool) (st : State) :
  isFailureNotification st = false ->
  rendered_notification
    (fst (onSubmit_resume JSON_parse window_accountId (Resolved b) st))
  = Some ("Added " ++ token_value st ++ " to the token list", false).
Proof.
  intros Hf. cbn. unfold rendered_notification. cbn. rewrite Hf. reflexivity.
Qed.

(** C6: the success branch sets the message and shows the notification but
    never resets the failure flag.  When a failure notification is still up
    (its timer has not fired), a successful submit renders
    "Added <identifier> to the token list" with the failure flag still true. *)
Theorem success_keeps_stale_failure_flag (b : bool) (st : State) :
  isFailureNotification st = true ->
  rendered_notification
    (fst (onSubmit_resume JSON_parse window_accountId (Resolved b) st))
  = Some ("Added " ++ token_value st ++ " to the token list", true).
Proof.
  intros Hf. cbn. unfold rendered_notification. cbn. rewrite Hf. reflexivity.
Qed.

(** *** The finally block *)

(** C7: however [add_token] settled and however the handler ends (returning
    or re-raising), the fieldset is enabled again and exactly one more
    [getTokenData(window.accountId)] has been started, which has issued
    exactly one [get_tokens(0, 100)] call and waits for the list. *)
Theorem onSubmit_always_unlocks_and_resyncs (o : Settled bool) (st : State) :
  let st' := fst (onSubmit_resume JSON_parse window_accountId o st) in
  fieldset_disabled st' = false
  /\ syncs st' = (syncs st ++ [getTokenData window_accountId])%list
  /\ length (syncs st') = S (length (syncs st))
  /\ calls (getTokenData window_accountId) = [Call_get_tokens 0 100]
  /\ phase (getTokenData window_accountId) = AwaitList
  /\ arg (getTokenData window_accountId) = window_accountId.
Proof.
  assert (H : fieldset_disabled (fst (onSubmit_resume JSON_parse window_accountId o st)) = false
              /\ syncs (fst (onSubmit_resume JSON_parse window_accountId o st))
                 = (syncs st ++ [getTokenData window_accountId])%list).
  { destruct o as [b|e]; [split; reflexivity|].
    unfold onSubmit_resume, catch_block.
    destruct (JSON_parse (message e)) as [j|]; [|split; reflexivity].
    destruct (isNotTokenAccount j) as [[|]|]; split; reflexivity. }
  destruct H as [H1 H2]. cbn zeta. rewrite H2, H1.
  repeat split; try reflexivity.
  rewrite length_app. cbn. lia.
Qed.

End HandlerFacts.

(** ** getTokenData under every completion order *)

(** *** JavaScript arrays *)

Lemma array_get_set_eq {A : Type} (i : nat) (v : A) (arr : list (option A)) :
  array_get i (array_set i v arr) = Some v.
Proof.
  unfold array_get, array_set. destruct (decide (i < length arr)) as [Hlt|Hge].
  - rewrite list_lookup_insert_eq by exact Hlt. reflexivity.
  - rewrite lookup_app_r by lia.
    rewrite lookup_app_r by (rewrite length_replicate; lia).
    rewrite length_replicate.
    replace (i - length arr - (i - length arr)) with 0 by lia. reflexivity.
Qed.

Lemma array_get_set_ne {A : Type} (i j : nat) (v : A) (arr : list (option A)) :
  i <> j -> array_get j (array_set i v arr) = array_get j arr.
Proof.
  intros Hne. unfold array_get, array_set.
  destruct (decide (i < length arr)) as [Hlt|Hge].
  - rewrite list_lookup_insert_ne by exact Hne. reflexivity.
  - destruct (decide (j < length arr)) as [Hj|Hj].
    + rewrite lookup_app_l by exact Hj. reflexivity.
    + rewrite lookup_app_r by lia.
      rewrite (lookup_ge_None_2 arr j) by lia.
      destruct (decide (j - length arr < i - length arr)) as [Hin|Hout].
      * rewrite lookup_app_l by (rewrite length_replicate; exact Hin).
        rewrite lookup_replicate_2 by exact Hin. reflexivity.
      * rewrite lookup_app_r by (rewrite length_replicate; lia).
        rewrite length_replicate.
        destruct (j - length arr - (i - length arr)) as [|k] eqn:Hk; [lia|].
        reflexivity.
Qed.

Lemma array_set_length {A : Type} (i : nat) (v : A) (arr : list (option A)) (n : nat) :
  i < n -> length arr <= n -> length (array_set i v arr) <= n.
Proof.
  intros Hi Hn. unfold array_set. destruct (decide (i < length arr)).
  - rewrite length_insert. exact Hn.
  - rewrite !length_app, length_replicate. cbn. lia.
Qed.

(** *** Counting the mapper invocations that have not returned *)

Lemma pending_insert (ms : list (string * Mapper)) (i : nat) (x y : string * Mapper) :
  ms !! i = Some x ->
  pending (<[i := y]> ms) + weight x = pending ms + weight y.
Proof.
  revert i. induction ms as [|z ms IH]; intros i Hi; [discriminate|].
  destruct i as [|i]; simpl in *.
  - inversion Hi; subst. lia.
  - specialize (IH i Hi). lia.
Qed.

Lemma pending_zero_fulfilled (ms : list (string * Mapper)) (i : nat) (id : string) (m : Mapper) :
  pending ms = 0 -> ms !! i = Some (id, m) -> is_fulfilled m = true.
Proof.
  revert i. induction ms as [|z ms IH]; intros i H0 Hi; [discriminate|].
  simpl in H0. destruct i as [|i]; simpl in Hi.
  - inversion Hi; subst. unfold weight in H0. simpl in H0.
    destruct (is_fulfilled m); [reflexivity | lia].
  - apply (IH i); [lia | exact Hi].
Qed.

Lemma pending_all_fulfilled (ms : list (string * Mapper)) :
  (forall i id m, ms !! i = Some (id, m) -> is_fulfilled m = true) ->
  pending ms = 0.
Proof.
  induction ms as [|[id m] ms IH]; intros H; [reflexivity|].
  simpl. rewrite IH.
  - unfold weight. simpl. rewrite (H 0 id m eq_refl). reflexivity.
  - intros i id' m' Hi. apply (H (S i) id' m'). exact Hi.
Qed.

(** *** What p-map's steps leave alone *)

Lemma mappers_settle (v : Settled (list (option TokenData))) (p : PMap) :
  mappers (settle v p) = mappers p.
Proof. unfold settle. destruct (promise p) eqn:Hp; reflexivity. Qed.

Lemma mappers_next (p : PMap) : mappers (next p) = mappers p.
Proof.
  unfold next. destruct (isRejected p); [reflexivity|].
  destruct (Nat.eqb (resolvingCount p) 0); [apply mappers_settle | reflexivity].
Qed.

Lemma settle_fields (v : Settled (list (option TokenData))) (p : PMap) :
  result (settle v p) = result p
  /\ resolvingCount (settle v p) = resolvingCount p
  /\ isRejected (settle v p) = isRejected p
  /\ promise (settle v p) = match promise p with Some w => Some w | None => Some v end.
Proof.
  unfold settle. destruct (promise p) eqn:Hp; repeat split; try reflexivity.
  exact Hp.
Qed.

Lemma next_fields (p : PMap) :
  result (next p) = result p
  /\ resolvingCount (next p) = resolvingCount p
  /\ isRejected (next p) = isRejected p.
Proof.
  unfold next. destruct (isRejected p) eqn:Hr; [rewrite Hr; repeat split; reflexivity|].
  destruct (Nat.eqb (resolvingCount p) 0).
  - destruct (settle_fields (Resolved (result p)) p) as (H1 & H2 & H3 & _).
    rewrite H1, H2, H3, Hr. repeat split; reflexivity.
  - rewrite Hr. repeat split; reflexivity.
Qed.

Lemma next_promise (p : PMap) :
  promise (next p)
  = match promise p with
    | Some w => Some w
    | None =>
        if isRejected p then None
        else if Nat.eqb (resolvingCount p) 0 then Some (Resolved (result p))
        else None
    end.
Proof.
  unfold next. destruct (isRejected p).
  - destruct (promise p); reflexivity.
  - destruct (Nat.eqb (resolvingCount p) 0).
    + destruct (settle_fields (Resolved (result p)) p) as (_ & _ & _ & H). exact H.
    + destruct (promise p); reflexivity.
Qed.

(** *** The invariant of one [getTokenData] invocation *)

Section EnricherFacts.

Variable remote : Remote.t.
Variable window_accountId : option string.
Variable accountId_param : option string.

Local Abbreviation expected_balance :=
  (Invariant.expected_balance remote window_accountId accountId_param).
Local Abbreviation expected :=
  (Invariant.expected remote window_accountId accountId_param).
Local Abbreviation mapper_ok :=
  (Invariant.mapper_ok remote window_accountId accountId_param).
Local Abbreviation resume_at :=
  (Invariant.resume_at remote window_accountId accountId_param).
Local Abbreviation pmap_inv :=
  (Invariant.pmap_inv remote window_accountId accountId_param).
Local Abbreviation inv_ids :=
  (Invariant.inv_ids remote window_accountId accountId_param).
Local Abbreviation inv_ok :=
  (Invariant.inv_ok remote window_accountId accountId_param).
Local Abbreviation inv_count :=
  (Invariant.inv_count remote window_accountId accountId_param).
Local Abbreviation inv_promise :=
  (Invariant.inv_promise remote window_accountId accountId_param).
Local Abbreviation inv_rejected :=
  (Invariant.inv_rejected remote window_accountId accountId_param).
Local Abbreviation balance_call := (Invariant.balance_call window_accountId).
Local Abbreviation logged := (Invariant.logged window_accountId).
Local Abbreviation call_ok :=
  (Invariant.call_ok remote window_accountId accountId_param).
Local Abbreviation sync_inv :=
  (Invariant.sync_inv remote window_accountId accountId_param).
Local Abbreviation sinv_arg :=
  (Invariant.sinv_arg remote window_accountId accountId_param).
Local Abbreviation enriched_from_remote :=
  (Invariant.enriched_from_remote remote window_accountId accountId_param).
Local Abbreviation lookups_resolve :=
  (Invariant.lookups_resolve remote window_accountId accountId_param).

Lemma mapper_resume_settled (id : string) (m : Mapper) :
  is_settled m = true ->
  mapper_resume remote window_accountId accountId_param id m = (m, []).
Proof. destruct m; intros H; try discriminate; reflexivity. Qed.

Lemma mapper_resume_ok (id : string) (m : Mapper) :
  mapper_ok id m ->
  mapper_ok id (fst (mapper_resume remote window_accountId accountId_param id m)).
Proof.
  intros Hok. destruct m as [| |b|d|e]; cbn [mapper_resume].
  - destruct (account remote id); [|exact I].
    destruct (truthy_param accountId_param) eqn:Ht; cbn.
    + exact Ht.
    + unfold expected_balance. rewrite Ht. reflexivity.
  - destruct (ft_balance_of remote id window_accountId) as [b|e] eqn:Hb; [|exact I].
    cbn. unfold expected_balance. cbn in Hok. rewrite Hok, Hb. reflexivity.
  - destruct (ft_metadata remote id) as [md|e] eqn:Hmd; [|exact I].
    cbn. unfold expected. cbn in Hok. rewrite Hok, Hmd. reflexivity.
  - exact Hok.
  - exact I.
Qed.

Lemma pending_started (ids : list string) :
  pending (map (fun id => (id, AwaitAccount)) ids) = length ids.
Proof. induction ids as [|id ids IH]; [reflexivity|]. simpl. rewrite IH. reflexivity. Qed.

Lemma lookup_started (ids : list string) (i : nat) :
  map (fun id : string => (id, AwaitAccount)) ids !! i
  = (fun id => (id, AwaitAccount)) <$> (ids !! i).
Proof.
  revert i. induction ids as [|id ids IH]; intros [|i]; try reflexivity.
  simpl. apply IH.
Qed.

Lemma pmap_inv_start (ids : list string) :
  pmap_inv ids (fst (pMap ids)).
Proof.
  unfold pMap. cbn [fst].
  set (p0 := mkPMap (map (fun id => (id, AwaitAccount)) ids) [] (length ids) false None).
  destruct (next_fields p0) as (Hres & Hcnt & Hrej).
  pose proof (next_promise p0) as Hpr. pose proof (mappers_next p0) as Hms.
  constructor; rewrite ?Hms, ?Hres, ?Hcnt, ?Hrej, ?Hpr; subst p0;
    cbn [mappers result resolvingCount isRejected promise].
  - intros i. rewrite lookup_started. destruct (ids !! i); reflexivity.
  - intros i id m Hi. rewrite lookup_started in Hi.
    destruct (ids !! i); inversion Hi; subst. exact I.
  - intros i. rewrite lookup_started.
    unfold array_get. rewrite lookup_nil. destruct (ids !! i); reflexivity.
  - cbn. lia.
  - rewrite pending_started. reflexivity.
  - destruct (Nat.eqb (length ids) 0) eqn:Hn.
    + apply Nat.eqb_eq in Hn. repeat split; exact Hn.
    + apply Nat.eqb_neq in Hn. split; [reflexivity | exact Hn].
  - discriminate.
Qed.

Lemma pMap_settle_cases (i : nat) (p : PMap) :
  pMap_settle remote window_accountId accountId_param i p = (p, [])
  \/ exists id m m' cs,
       mappers p !! i = Some (id, m)
       /\ is_settled m = false
       /\ mapper_resume remote window_accountId accountId_param id m = (m', cs)
       /\ pMap_settle remote window_accountId accountId_param i p
          = (after i m' (set_mapper i (id, m') p), cs).
Proof.
  unfold pMap_settle. destruct (mappers p !! i) as [[id m]|] eqn:Hi; [|left; reflexivity].
  destruct (is_settled m) eqn:Hs; [left; reflexivity|].
  destruct (mapper_resume remote window_accountId accountId_param id m) as [m' cs] eqn:Hr.
  right. exists id, m, m', cs.
  split; [reflexivity|]. split; [exact Hs|]. split; [exact Hr|].
  destruct m'; reflexivity.
Qed.

Lemma lookup_set_mapper (ms : list (string * Mapper)) (i j : nat) (x y : string * Mapper) :
  ms !! i = Some x ->
  <[i := y]> ms !! j = if decide (i = j) then Some y else ms !! j.
Proof.
  intros Hi. destruct (decide (i = j)) as [->|Hne].
  - apply list_lookup_insert_eq. apply (lookup_lt_Some _ _ _ Hi).
  - apply list_lookup_insert_ne. exact Hne.
Qed.

Lemma unsettled_not_fulfilled (m : Mapper) :
  is_settled m = false -> is_fulfilled m = false.
Proof. destruct m; intros H; try discriminate; reflexivity. Qed.

Lemma mappers_after (i : nat) (m' : Mapper) (p1 : PMap) :
  mappers (after i m' p1) = mappers p1.
Proof.
  destruct m'; try reflexivity.
  - unfold after, on_fulfilled. rewrite mappers_next. reflexivity.
  - unfold after, on_rejected. rewrite mappers_settle. reflexivity.
Qed.

Lemma pmap_inv_settle (ids : list string) (i : nat) (p : PMap) :
  pmap_inv ids p ->
  pmap_inv ids (fst (pMap_settle remote window_accountId accountId_param i p)).
Proof.
  intros Hinv.
  destruct (pMap_settle_cases i p) as [->|(id & m & m' & cs & Hi & Hs & Hr & ->)];
    [exact Hinv|].
  cbn [fst].
  destruct Hinv as [Hids Hok Hres Hlen Hcnt Hpr Hrej].
  assert (Hlt : i < length ids).
  { apply lookup_lt_is_Some. rewrite <- Hids, Hi. eexists. reflexivity. }
  assert (Hm' : mapper_ok id m').
  { replace m' with (fst (mapper_resume remote window_accountId accountId_param id m))
      by (rewrite Hr; reflexivity).
    apply mapper_resume_ok. apply (Hok i). exact Hi. }
  assert (Hnf : is_fulfilled m = false) by (apply unsettled_not_fulfilled; exact Hs).
  assert (Hms : forall j, mappers (after i m' (set_mapper i (id, m') p)) !! j
                = if decide (i = j) then Some (id, m') else mappers p !! j).
  { intros j. rewrite mappers_after. cbn [set_mapper mappers].
    apply (lookup_set_mapper _ _ _ _ _ Hi). }
  assert (Hpend : pending (<[i := (id, m')]> (mappers p)) + 1
                  = pending (mappers p) + weight (id, m')).
  { pose proof (pending_insert (mappers p) i (id, m) (id, m') Hi) as H.
    unfold weight at 1 in H. cbn [snd] in H. rewrite Hnf in H. exact H. }
  assert (Hpos : resolvingCount p <> 0).
  { rewrite Hcnt. intros H0.
    pose proof (pending_zero_fulfilled _ _ _ _ H0 Hi) as Hf. congruence. }
  assert (Hunres : match promise p with
                   | Some (Resolved _) => False
                   | Some (Rejected _) => isRejected p = true
                   | None => isRejected p = false
                   end).
  { destruct (promise p) as [[arr|e]|]; [|exact Hpr|apply Hpr].
    destruct Hpr as (_ & H0 & _). exact (Hpos H0). }
  constructor.
  - intros j. rewrite Hms. destruct (decide (i = j)) as [<-|Hne]; [|apply Hids].
    rewrite <- Hids, Hi. reflexivity.
  - intros j id' m'' Hj. rewrite Hms in Hj.
    destruct (decide (i = j)) as [<-|Hne]; [|apply (Hok j); exact Hj].
    inversion Hj; subst. exact Hm'.
  - intros j. rewrite Hms. destruct m' as [| |b|d|e].
    + cbn [after set_mapper result]. rewrite Hres.
      destruct (decide (i = j)) as [<-|Hne]; [|reflexivity].
      rewrite Hi. cbn. unfold data_of. cbn. destruct m; try reflexivity; discriminate.
    + cbn [after set_mapper result]. rewrite Hres.
      destruct (decide (i = j)) as [<-|Hne]; [|reflexivity].
      rewrite Hi. cbn. unfold data_of. cbn. destruct m; try reflexivity; discriminate.
    + cbn [after set_mapper result]. rewrite Hres.
      destruct (decide (i = j)) as [<-|Hne]; [|reflexivity].
      rewrite Hi. cbn. unfold data_of. cbn. destruct m; try reflexivity; discriminate.
    + unfold after, on_fulfilled.
      destruct (next_fields (mkPMap (mappers (set_mapper i (id, Fulfilled d) p))
                  (array_set i d (result (set_mapper i (id, Fulfilled d) p)))
                  (Nat.pred (resolvingCount (set_mapper i (id, Fulfilled d) p)))
                  (isRejected (set_mapper i (id, Fulfilled d) p))
                  (promise (set_mapper i (id, Fulfilled d) p)))) as (-> & _ & _).
      cbn [set_mapper result].
      destruct (decide (i = j)) as [<-|Hne].
      * rewrite array_get_set_eq. reflexivity.
      * rewrite array_get_set_ne by exact Hne. apply Hres.
    + unfold after, on_rejected.
      destruct (settle_fields (Rejected e)
                  (mkPMap (mappers (set_mapper i (id, Failed e) p))
                     (result (set_mapper i (id, Failed e) p))
                     (resolvingCount (set_mapper i (id, Failed e) p)) true
                     (promise (set_mapper i (id, Failed e) p)))) as (-> & _ & _ & _).
      cbn [set_mapper result]. rewrite Hres.
      destruct (decide (i = j)) as [<-|Hne]; [|reflexivity].
      rewrite Hi. cbn. unfold data_of. cbn. destruct m; try reflexivity; discriminate.
  - destruct m' as [| |b|d|e]; try exact Hlen.
    + unfold after, on_fulfilled.
      destruct (next_fields (mkPMap (mappers (set_mapper i (id, Fulfilled d) p))
                  (array_set i d (result (set_mapper i (id, Fulfilled d) p)))
                  (Nat.pred (resolvingCount (set_mapper i (id, Fulfilled d) p)))
                  (isRejected (set_mapper i (id, Fulfilled d) p))
                  (promise (set_mapper i (id, Fulfilled d) p)))) as (-> & _ & _).
      cbn [set_mapper result]. apply array_set_length; [exact Hlt | exact Hlen].
    + unfold after, on_rejected.
      destruct (settle_fields (Rejected e)
                  (mkPMap (mappers (set_mapper i (id, Failed e) p))
                     (result (set_mapper i (id, Failed e) p))
                     (resolvingCount (set_mapper i (id, Failed e) p)) true
                     (promise (set_mapper i (id, Failed e) p)))) as (-> & _ & _ & _).
      exact Hlen.
  - rewrite mappers_after. cbn [set_mapper mappers].
    destruct m' as [| |b|d|e]; unfold weight in Hpend; cbn [snd is_fulfilled] in Hpend.
    + cbn [after set_mapper resolvingCount]. lia.
    + cbn [after set_mapper resolvingCount]. lia.
    + cbn [after set_mapper resolvingCount]. lia.
    + unfold after, on_fulfilled.
      destruct (next_fields (mkPMap (mappers (set_mapper i (id, Fulfilled d) p))
                  (array_set i d (result (set_mapper i (id, Fulfilled d) p)))
                  (Nat.pred (resolvingCount (set_mapper i (id, Fulfilled d) p)))
                  (isRejected (set_mapper i (id, Fulfilled d) p))
                  (promise (set_mapper i (id, Fulfilled d) p)))) as (_ & -> & _).
      cbn [set_mapper resolvingCount]. lia.
    + unfold after, on_rejected.
      destruct (settle_fields (Rejected e)
                  (mkPMap (mappers (set_mapper i (id, Failed e) p))
                     (result (set_mapper i (id, Failed e) p))
                     (resolvingCount (set_mapper i (id, Failed e) p)) true
                     (promise (set_mapper i (id, Failed e) p)))) as (_ & -> & _ & _).
      cbn [set_mapper resolvingCount]. lia.
  - destruct m' as [| |b|d|e]; try exact Hpr.
    + unfold after, on_fulfilled.
      set (q := mkPMap (mappers (set_mapper i (id, Fulfilled d) p))
                  (array_set i d (result (set_mapper i (id, Fulfilled d) p)))
                  (Nat.pred (resolvingCount (set_mapper i (id, Fulfilled d) p)))
                  (isRejected (set_mapper i (id, Fulfilled d) p))
                  (promise (set_mapper i (id, Fulfilled d) p))).
      destruct (next_fields q) as (-> & -> & ->). rewrite next_promise.
      subst q. cbn [set_mapper result resolvingCount isRejected promise].
      destruct (promise p) as [[arr|e]|]; [destruct Hunres | exact Hunres |].
      rewrite Hunres.
      destruct (Nat.eqb (Nat.pred (resolvingCount p)) 0) eqn:Hz.
      * apply Nat.eqb_eq in Hz. repeat split; exact Hz.
      * apply Nat.eqb_neq in Hz. split; [reflexivity | exact Hz].
    + unfold after, on_rejected.
      set (q := mkPMap (mappers (set_mapper i (id, Failed e) p))
                     (result (set_mapper i (id, Failed e) p))
                     (resolvingCount (set_mapper i (id, Failed e) p)) true
                     (promise (set_mapper i (id, Failed e) p))).
      destruct (settle_fields (Rejected e) q) as (-> & -> & -> & ->).
      subst q. cbn [set_mapper result resolvingCount isRejected promise].
      destruct (promise p) as [[arr|e']|]; [destruct Hunres | reflexivity | reflexivity].
  - intros Hr'. destruct m' as [| |b|d|e].
    + destruct (Hrej Hr') as (j & id' & e' & Hj). exists j, id', e'.
      rewrite Hms. destruct (decide (i = j)) as [<-|Hne]; [|exact Hj].
      rewrite Hi in Hj. inversion Hj; subst. discriminate.
    + destruct (Hrej Hr') as (j & id' & e' & Hj). exists j, id', e'.
      rewrite Hms. destruct (decide (i = j)) as [<-|Hne]; [|exact Hj].
      rewrite Hi in Hj. inversion Hj; subst. discriminate.
    + destruct (Hrej Hr') as (j & id' & e' & Hj). exists j, id', e'.
      rewrite Hms. destruct (decide (i = j)) as [<-|Hne]; [|exact Hj].
      rewrite Hi in Hj. inversion Hj; subst. discriminate.
    + unfold after, on_fulfilled in Hr'.
      destruct (next_fields (mkPMap (mappers (set_mapper i (id, Fulfilled d) p))
                  (array_set i d (result (set_mapper i (id, Fulfilled d) p)))
                  (Nat.pred (resolvingCount (set_mapper i (id, Fulfilled d) p)))
                  (isRejected (set_mapper i (id, Fulfilled d) p))
                  (promise (set_mapper i (id, Fulfilled d) p)))) as (_ & _ & Hq).
      rewrite Hq in Hr'. cbn [set_mapper isRejected] in Hr'.
      destruct (Hrej Hr') as (j & id' & e' & Hj). exists j, id', e'.
      rewrite Hms. destruct (decide (i = j)) as [<-|Hne]; [|exact Hj].
      rewrite Hi in Hj. inversion Hj; subst. discriminate.
    + exists i, id, e. rewrite Hms. destruct (decide (i = i)); [reflexivity | congruence].
Qed.

Lemma lookup_pMap_settle (i j : nat) (p : PMap) :
  mappers (fst (pMap_settle remote window_accountId accountId_param i p)) !! j
  = if decide (i = j) then resume_at <$> (mappers p !! i) else mappers p !! j.
Proof.
  unfold pMap_settle. destruct (mappers p !! i) as [[id m]|] eqn:Hi.
  - destruct (is_settled m) eqn:Hs.
    + cbn [fst]. destruct (decide (i = j)) as [<-|Hne]; [|reflexivity].
      rewrite Hi. unfold resume_at. cbn [fmap option_fmap option_map fst snd].
      rewrite (mapper_resume_settled id m Hs). reflexivity.
    + destruct (mapper_resume remote window_accountId accountId_param id m)
        as [m' cs] eqn:Hr.
      cbn [fst]. change (mappers (after i m' (set_mapper i (id, m') p)) !! j
                         = if decide (i = j) then resume_at <$> Some (id, m)
                           else mappers p !! j).
      rewrite mappers_after. cbn [set_mapper mappers].
      rewrite (lookup_set_mapper _ _ _ _ _ Hi).
      destruct (decide (i = j)); [|reflexivity].
      unfold resume_at. cbn [fmap option_fmap option_map fst snd].
      rewrite Hr. reflexivity.
  - cbn [fst]. destruct (decide (i = j)) as [<-|Hne]; [exact Hi | reflexivity].
Qed.

(** *** The calls a mapper issues *)

Lemma mapper_resume_calls (id : string) (m m' : Mapper) (cs : list Call) :
  mapper_resume remote window_accountId accountId_param id m = (m', cs) ->
  (cs = [] /\ m' <> AwaitBalance)
  \/ (m = AwaitAccount /\ truthy_param accountId_param = true
      /\ m' = AwaitBalance /\ cs = [balance_call id])
  \/ (m = AwaitAccount /\ truthy_param accountId_param = false
      /\ cs = [metadata_call id])
  \/ (m = AwaitBalance
      /\ (exists b, ft_balance_of remote id window_accountId = Resolved b)
      /\ m' <> AwaitBalance /\ cs = [metadata_call id]).
Proof.
  destruct m as [| |b|d|e]; cbn [mapper_resume]; intros H.
  - destruct (account remote id).
    + destruct (truthy_param accountId_param) eqn:Ht; inversion H; subst.
      * right. left. repeat split; reflexivity.
      * right. right. left. repeat split; reflexivity.
    + inversion H; subst. left. split; [reflexivity | discriminate].
  - destruct (ft_balance_of remote id window_accountId) as [b|e] eqn:Hb;
      inversion H; subst.
    + right. right. right. split; [reflexivity|]. split; [exists b; reflexivity|].
      split; [discriminate | reflexivity].
    + left. split; [reflexivity | discriminate].
  - destruct (ft_metadata remote id); inversion H; subst;
      left; (split; [reflexivity | discriminate]).
  - inversion H; subst. left. split; [reflexivity | discriminate].
  - inversion H; subst. left. split; [reflexivity | discriminate].
Qed.

Lemma logged_app (log cs : list Call) (id : string) (m : Mapper) :
  logged log id m -> logged (log ++ cs) id m.
Proof.
  destruct m; cbn; intros H; try exact I; apply in_app_iff; left; exact H.
Qed.

Lemma logged_resume (log cs : list Call) (id : string) (m m' : Mapper) :
  mapper_resume remote window_accountId accountId_param id m = (m', cs) ->
  logged log id m ->
  logged (log ++ cs) id m'.
Proof.
  destruct m as [| |b|d|e]; cbn [mapper_resume]; intros H Hl.
  - destruct (account remote id); [|inversion H; subst; exact I].
    destruct (truthy_param accountId_param); inversion H; subst; cbn;
      apply in_app_iff; right; left; reflexivity.
  - destruct (ft_balance_of remote id window_accountId); inversion H; subst; cbn;
      [apply in_app_iff; right; left; reflexivity | exact I].
  - destruct (ft_metadata remote id); inversion H; subst; cbn; [|exact I].
    apply in_app_iff. left. exact Hl.
  - inversion H; subst. apply logged_app. exact Hl.
  - inversion H; subst. exact I.
Qed.

Lemma sync_inv_start : sync_inv (getTokenData accountId_param).
Proof.
  constructor.
  - reflexivity.
  - exact I.
  - constructor; [split; reflexivity | constructor].
  - intros id Hin _. destruct Hin as [H|H]; [discriminate | destruct H].
Qed.

Lemma Forall_call_ok_accounts (ids : list string) :
  Forall call_ok (map Call_account ids).
Proof. induction ids; constructor; [exact I | assumption]. Qed.

Lemma no_view_call_among_accounts (ids : list string) (id method : string) (args : Args) :
  ~ In (Call_viewFunction id method args) (map Call_account ids).
Proof.
  induction ids as [|x ids IH]; [intros []|].
  intros [H|H]; [discriminate | exact (IH H)].
Qed.

Lemma sync_inv_step (s : Sync) (t : Tick) :
  sync_inv s -> sync_inv (Enricher.step remote window_accountId s t).
Proof.
  intros [Harg Hph Hcalls Hord]. unfold Enricher.step.
  destruct t as [|j]; destruct (phase s) as [|e|p] eqn:Hphase;
    try (constructor; rewrite ?Hphase; assumption).
  - (* the list settles *)
    destruct (get_tokens remote 0 100) as [ids|e] eqn:Hlist.
    + destruct (pMap ids) as [p cs] eqn:Hp.
      assert (Hp1 : p = fst (pMap ids)) by (rewrite Hp; reflexivity).
      assert (Hcs : cs = map Call_account ids) by (unfold pMap in Hp; congruence).
      constructor; cbn [arg phase calls].
      * exact Harg.
      * exists ids. split; [exact Hlist|]. split; [subst p; apply pmap_inv_start|].
        intros i id m Hi. subst p. unfold pMap in Hi. cbn [fst] in Hi.
        rewrite mappers_next in Hi. cbn [mappers] in Hi.
        rewrite lookup_started in Hi. destruct (ids !! i); inversion Hi; subst. exact I.
      * apply Forall_app. split; [exact Hcalls|]. subst cs. apply Forall_call_ok_accounts.
      * intros id Hin Ht. apply in_app_iff. left. apply Hord; [|exact Ht].
        apply in_app_iff in Hin. destruct Hin as [Hin|Hin]; [exact Hin|].
        subst cs. exfalso. exact (no_view_call_among_accounts _ _ _ _ Hin).
    + constructor; cbn [arg phase calls]; assumption.
  - (* a lookup settles *)
    destruct Hph as (ids & Hlist & Hinv & Hbal).
    rewrite Harg. clear Harg.
    pose proof (pmap_inv_settle ids j p Hinv) as Hinv'.
    pose proof (fun i => lookup_pMap_settle j i p) as Hlk.
    destruct (pMap_settle_cases j p) as [Heq|(id & m & m' & cs & Hj & Hs & Hr & Heq)].
    + rewrite Heq. constructor; cbn [arg phase calls]; rewrite ?app_nil_r.
      * reflexivity.
      * exists ids. split; [exact Hlist|]. split; [exact Hinv | exact Hbal].
      * exact Hcalls.
      * exact Hord.
    + rewrite Heq in Hinv', Hlk |- *. cbn [fst] in Hinv', Hlk.
      assert (Hokm : mapper_ok id m) by (apply (inv_ok _ _ Hinv j); exact Hj).
      pose proof (mapper_resume_calls id m m' cs Hr) as Hcases.
      constructor; cbn [arg phase calls].
      * reflexivity.
      * exists ids. split; [exact Hlist|]. split; [exact Hinv'|].
        intros i id' m0 Hi. rewrite Hlk in Hi.
        destruct (decide (j = i)) as [<-|Hne];
          [|apply logged_app; apply (Hbal i); exact Hi].
        rewrite Hj in Hi. unfold resume_at in Hi.
        cbn [fmap option_fmap option_map fst snd] in Hi. rewrite Hr in Hi.
        cbn [fst] in Hi. inversion Hi; subst.
        apply (logged_resume _ _ _ _ _ Hr). apply (Hbal j). exact Hj.
      * apply Forall_app. split; [exact Hcalls|].
        destruct Hcases as [[-> _]|[(_ & Ht & _ & ->)|[(-> & Hf & ->)|(-> & (b & Hb) & _ & ->)]]].
        -- constructor.
        -- constructor; [|constructor]. left. repeat split. exact Ht.
        -- constructor; [|constructor]. right. repeat split.
           exists None. unfold expected_balance. rewrite Hf. reflexivity.
        -- constructor; [|constructor]. right. repeat split.
           exists b. unfold expected_balance. cbn in Hokm. rewrite Hokm, Hb. reflexivity.
      * intros id0 Hin Ht. apply in_app_iff. apply in_app_iff in Hin.
        destruct Hin as [Hin|Hin]; [left; apply Hord; assumption|].
        destruct Hcases as [[-> _]|[(_ & _ & _ & ->)|[(-> & Hf & ->)|(-> & _ & _ & ->)]]].
        -- destruct Hin.
        -- destruct Hin as [Hin|[]]. discriminate.
        -- congruence.
        -- destruct Hin as [Hin|[]]. inversion Hin; subst. left.
           exact (Hbal j _ _ Hj).
Qed.

Lemma sync_inv_run (sched : list Tick) (s : Sync) :
  sync_inv s -> sync_inv (Enricher.run remote window_accountId sched s).
Proof.
  revert s. induction sched as [|t sched IH]; intros s Hs; [exact Hs|].
  cbn. apply IH. apply sync_inv_step. exact Hs.
Qed.

(** *** A resolved result is the input, enriched in place *)

Lemma expected_spec (id : string) (d : TokenData) :
  expected id = Some d -> accountId d = id /\ enriched_from_remote d.
Proof.
  unfold expected, expected_balance, enriched_from_remote. intros H.
  destruct (truthy_param accountId_param).
  - destruct (ft_balance_of remote id window_accountId) as [b|e] eqn:Hb; [|discriminate].
    destruct (ft_metadata remote id) as [md|e] eqn:Hmd; [|discriminate].
    inversion H; subst. cbn. repeat split; assumption.
  - destruct (ft_metadata remote id) as [md|e] eqn:Hmd; [|discriminate].
    inversion H; subst. cbn. repeat split; assumption.
Qed.

Lemma resolved_pointwise (ids : list string) (p : PMap) (arr : list (option TokenData)) :
  pmap_inv ids p ->
  promise p = Some (Resolved arr) ->
  (forall i id, ids !! i = Some id ->
                exists d, expected id = Some d /\ arr !! i = Some (Some d))
  /\ (forall i, ids !! i = None -> arr !! i = None).
Proof.
  intros [Hids Hok Hres Hlen Hcnt Hpr Hrej] Hp. rewrite Hp in Hpr.
  destruct Hpr as (-> & H0 & _). rewrite Hcnt in H0. split.
  - intros i id Hi. specialize (Hids i). rewrite Hi in Hids.
    destruct (mappers p !! i) as [[id' m]|] eqn:Hm; [|discriminate].
    cbn in Hids. inversion Hids; subst id'.
    pose proof (pending_zero_fulfilled _ _ _ _ H0 Hm) as Hf.
    destruct m as [| |b|d|e]; try discriminate.
    exists d. split; [exact (Hok i id (Fulfilled d) Hm)|].
    specialize (Hres i). rewrite Hm in Hres. cbn in Hres.
    unfold array_get in Hres.
    destruct (result p !! i) as [[x|]|]; cbn in Hres; congruence.
  - intros i Hi. apply lookup_ge_None_2. apply lookup_ge_None_1 in Hi. lia.
Qed.

Lemma enriched_in_place (ids : list string) :
  forall arr : list (option TokenData),
    (forall i id, ids !! i = Some id ->
                  exists d, expected id = Some d /\ arr !! i = Some (Some d)) ->
    (forall i, ids !! i = None -> arr !! i = None) ->
    exists recs, arr = map Some recs
                 /\ map accountId recs = ids
                 /\ Forall enriched_from_remote recs.
Proof.
  induction ids as [|id ids IH]; intros arr Hsome Hnone.
  - exists []. split; [|split; [reflexivity | constructor]].
    destruct arr as [|x arr]; [reflexivity|].
    specialize (Hnone 0 eq_refl). discriminate.
  - destruct (Hsome 0 id eq_refl) as (d & Hd & H0).
    destruct arr as [|x arr]; [discriminate|]. cbn in H0. inversion H0; subst x.
    destruct (IH arr) as (recs & -> & Hacc & Hall).
    + intros i id' Hi. apply (Hsome (S i) id'). exact Hi.
    + intros i Hi. apply (Hnone (S i)). exact Hi.
    + destruct (expected_spec id d Hd) as [Hid Henr].
      exists (d :: recs). split; [reflexivity|]. split.
      * cbn. rewrite Hid, Hacc. reflexivity.
      * constructor; assumption.
Qed.

Lemma resolved_in_order (sched : list Tick) (arr : list (option TokenData)) :
  outcome (Enricher.run remote window_accountId sched (getTokenData accountId_param))
  = Some (Resolved arr) ->
  exists ids recs,
    get_tokens remote 0 100 = Resolved ids
    /\ arr = map Some recs
    /\ map accountId recs = ids
    /\ Forall enriched_from_remote recs.
Proof.
  intros Hout.
  pose proof (sync_inv_run sched _ sync_inv_start) as [_ Hph _ _].
  unfold outcome in Hout.
  destruct (phase (Enricher.run remote window_accountId sched (getTokenData accountId_param)))
    as [|e|p]; try discriminate.
  destruct Hph as (ids & Hlist & Hinv & _).
  destruct (resolved_pointwise ids p arr Hinv Hout) as [Hsome Hnone].
  destruct (enriched_in_place ids arr Hsome Hnone) as (recs & H1 & H2 & H3).
  exists ids, recs. repeat split; assumption.
Qed.

(** *** Every complete schedule resolves *)

Lemma pmap_inv_length (ids : list string) (q : PMap) :
  pmap_inv ids q -> length (mappers q) = length ids.
Proof.
  intros Hq. pose proof (inv_ids _ _ Hq) as Hq'.
  destruct (Nat.lt_trichotomy (length (mappers q)) (length ids)) as [Hlt|[Heq|Hgt]];
    [|exact Heq|].
  - specialize (Hq' (length (mappers q))).
    rewrite (lookup_ge_None_2 (mappers q)) in Hq' by lia.
    apply lookup_lt_is_Some_2 in Hlt. destruct Hlt as [x Hx].
    rewrite Hx in Hq'. discriminate.
  - specialize (Hq' (length ids)).
    rewrite (lookup_ge_None_2 ids) in Hq' by lia.
    apply lookup_lt_is_Some_2 in Hgt. destruct Hgt as [x Hx].
    rewrite Hx in Hq'. discriminate.
Qed.

Lemma resume_progress (id : string) (m : Mapper) :
  (exists u, account remote id = Resolved u) ->
  (truthy_param accountId_param = true ->
   exists b, ft_balance_of remote id window_accountId = Resolved b) ->
  (exists md, ft_metadata remote id = Resolved md) ->
  mapper_ok id m ->
  is_failed m = false ->
  let m' := fst (mapper_resume remote window_accountId accountId_param id m) in
  is_failed m' = false /\ Nat.min 3 (rank m + 1) <= rank m'.
Proof.
  intros (u & Hu) Hb (md & Hmd) Hok Hf.
  destruct m as [| |b|d|e]; cbn [mapper_resume]; cbn zeta.
  - rewrite Hu. destruct (truthy_param accountId_param); cbn; split; (reflexivity || lia).
  - cbn in Hok. destruct (Hb Hok) as (b & ->). cbn. split; [reflexivity | lia].
  - rewrite Hmd. cbn. split; [reflexivity | lia].
  - cbn. split; [reflexivity | lia].
  - discriminate.
Qed.

Lemma run_progress (ids : list string) (ticks : list Tick) :
  lookups_resolve ids ->
  forall (s : Sync) (p : PMap),
    sync_inv s ->
    phase s = Mapping p ->
    pmap_inv ids p ->
    (forall i id m, mappers p !! i = Some (id, m) -> is_failed m = false) ->
    exists p',
      phase (Enricher.run remote window_accountId ticks s) = Mapping p'
      /\ pmap_inv ids p'
      /\ forall i id m, mappers p !! i = Some (id, m) ->
           exists m', mappers p' !! i = Some (id, m')
                      /\ is_failed m' = false
                      /\ Nat.min 3 (rank m + settles_of i ticks) <= rank m'.
Proof.
  intros Hres. induction ticks as [|t ticks IH]; intros s p Hs Hph Hinv Hnf.
  - exists p. split; [exact Hph|]. split; [exact Hinv|].
    intros i id m Hi. exists m. split; [exact Hi|]. split; [apply (Hnf i id); exact Hi|].
    cbn [settles_of]. lia.
  - cbn [Enricher.run fold_left].
    change (fold_left (Enricher.step remote window_accountId) ticks
              (Enricher.step remote window_accountId s t))
      with (Enricher.run remote window_accountId ticks
              (Enricher.step remote window_accountId s t)).
    pose proof (sync_inv_step s t Hs) as Hs'.
    destruct t as [|j].
    + (* the list has settled already *)
      assert (Hsame : Enricher.step remote window_accountId s ListSettles = s).
      { unfold Enricher.step. rewrite Hph. reflexivity. }
      rewrite Hsame. apply (IH s p Hs Hph Hinv Hnf).
    + assert (Hph' : phase (Enricher.step remote window_accountId s (LookupSettles j))
                     = Mapping (fst (pMap_settle remote window_accountId accountId_param j p))).
      { unfold Enricher.step. rewrite Hph, (sinv_arg _ Hs).
        destruct (pMap_settle remote window_accountId accountId_param j p); reflexivity. }
      set (p1 := fst (pMap_settle remote window_accountId accountId_param j p)) in *.
      assert (Hinv1 : pmap_inv ids p1) by (apply pmap_inv_settle; exact Hinv).
      assert (Hstep : forall i id m, mappers p !! i = Some (id, m) ->
                exists m1, mappers p1 !! i = Some (id, m1)
                           /\ is_failed m1 = false
                           /\ Nat.min 3 (rank m + (if Nat.eqb i j then 1 else 0)) <= rank m1).
      { intros i id m Hi. subst p1. rewrite lookup_pMap_settle.
        destruct (decide (j = i)) as [->|Hne].
        - rewrite Hi. unfold resume_at. cbn [fmap option_fmap option_map fst snd].
          eexists. split; [reflexivity|]. rewrite Nat.eqb_refl.
          assert (Hin : In id ids).
          { apply list_elem_of_In. apply (list_elem_of_lookup_2 _ i).
            rewrite <- (inv_ids _ _ Hinv i), Hi. reflexivity. }
          destruct (Hres id Hin) as (Hu & Hb & Hmd).
          apply resume_progress; try assumption.
          + apply (inv_ok _ _ Hinv i). exact Hi.
          + apply (Hnf i id). exact Hi.
        - exists m. split; [exact Hi|]. split; [apply (Hnf i id); exact Hi|].
          destruct (Nat.eqb_spec i j); [congruence|]. lia. }
      destruct (IH _ p1 Hs' Hph' Hinv1) as (p' & Hp' & Hinv' & Hrest).
      { intros i id m1 Hi1.
        destruct (mappers p !! i) as [[id0 m0]|] eqn:Hi0.
        - destruct (Hstep i id0 m0 Hi0) as (m1' & H1 & Hf1 & _). congruence.
        - exfalso. apply lookup_ge_None_1 in Hi0. apply lookup_lt_Some in Hi1.
          assert (length (mappers p1) = length (mappers p)); [|lia].
          rewrite (pmap_inv_length ids p1 Hinv1), (pmap_inv_length ids p Hinv).
          reflexivity. }
      exists p'. split; [exact Hp'|]. split; [exact Hinv'|].
      intros i id m Hi. destruct (Hstep i id m Hi) as (m1 & H1 & Hf1 & Hr1).
      destruct (Hrest i id m1 H1) as (m' & Hm' & Hf' & Hr').
      exists m'. split; [exact Hm'|]. split; [exact Hf'|].
      cbn [settles_of]. lia.
Qed.

Lemma complete_schedule_resolves (ids : list string) (ticks : list Tick) :
  get_tokens remote 0 100 = Resolved ids ->
  lookups_resolve ids ->
  (forall i, i < length ids -> 3 <= settles_of i ticks) ->
  let s := Enricher.run remote window_accountId (ListSettles :: ticks)
             (getTokenData accountId_param) in
  (exists recs,
      outcome s = Some (Resolved (map Some recs))
      /\ map accountId recs = ids
      /\ Forall enriched_from_remote recs)
  /\ (forall id, In id ids -> In (metadata_call id) (calls s)).
Proof.
  intros Hlist Hres Hticks.
  set (s1 := Enricher.step remote window_accountId (getTokenData accountId_param) ListSettles).
  assert (Hs1 : sync_inv s1) by (apply sync_inv_step, sync_inv_start).
  assert (Hph1 : phase s1 = Mapping (fst (pMap ids))).
  { subst s1. unfold Enricher.step. cbn [phase getTokenData]. rewrite Hlist.
    destruct (pMap ids); reflexivity. }
  pose proof (pmap_inv_start ids) as Hinv0.
  assert (Hms0 : forall i, mappers (fst (pMap ids)) !! i
                 = (fun id => (id, AwaitAccount)) <$> (ids !! i)).
  { intros i. unfold pMap. cbn [fst]. rewrite mappers_next. cbn [mappers].
    apply lookup_started. }
  destruct (run_progress ids ticks Hres s1 (fst (pMap ids)) Hs1 Hph1 Hinv0)
    as (p' & Hp' & Hinv' & Hall).
  { intros i id m Hi. rewrite Hms0 in Hi. destruct (ids !! i); inversion Hi; reflexivity. }
  assert (Hful : forall i id m, mappers p' !! i = Some (id, m) -> is_fulfilled m = true).
  { intros i id m Hi.
    assert (Hlt : i < length ids).
    { rewrite <- (pmap_inv_length ids p' Hinv'). apply (lookup_lt_Some _ _ _ Hi). }
    destruct (lookup_lt_is_Some_2 ids i Hlt) as [id0 Hid0].
    destruct (Hall i id0 AwaitAccount) as (m' & Hm' & Hf' & Hr').
    { rewrite Hms0, Hid0. reflexivity. }
    rewrite Hi in Hm'. inversion Hm'; subst.
    specialize (Hticks i Hlt).
    destruct m' as [| |b|d|e]; cbn [rank] in Hr'.
    - exfalso. lia.
    - exfalso. lia.
    - exfalso. lia.
    - reflexivity.
    - discriminate Hf'. }
  pose proof (pending_all_fulfilled _ Hful) as H0.
  assert (Hpr : exists arr, promise p' = Some (Resolved arr)).
  { pose proof (inv_promise _ _ Hinv') as Hpr. pose proof (inv_count _ _ Hinv') as Hcnt.
    destruct (promise p') as [[arr|e]|].
    - exists arr. reflexivity.
    - destruct (inv_rejected _ _ Hinv' Hpr) as (i & id & e' & Hi).
      specialize (Hful i id _ Hi). discriminate.
    - destruct Hpr as [_ Hne]. congruence. }
  destruct Hpr as (arr & Hpr).
  destruct (resolved_pointwise ids p' arr Hinv' Hpr) as [Hsome Hnone].
  destruct (enriched_in_place ids arr Hsome Hnone) as (recs & -> & Hacc & Henr).
  cbn zeta. cbn [Enricher.run fold_left].
  change (fold_left (Enricher.step remote window_accountId) ticks
            (Enricher.step remote window_accountId (getTokenData accountId_param) ListSettles))
    with (Enricher.run remote window_accountId ticks s1).
  split.
  - exists recs. split; [|split; assumption].
    unfold outcome. rewrite Hp'. exact Hpr.
  - intros id Hin.
    pose proof (sync_inv_run ticks s1 Hs1) as [_ Hph _ _]. rewrite Hp' in Hph.
    destruct Hph as (ids' & _ & _ & Hlog).
    apply list_elem_of_In, list_elem_of_lookup_1 in Hin. destruct Hin as [i Hi].
    pose proof (inv_ids _ _ Hinv' i) as Hfst. rewrite Hi in Hfst.
    destruct (mappers p' !! i) as [[id' m]|] eqn:Hm; [|discriminate].
    cbn in Hfst. inversion Hfst; subst id'.
    pose proof (Hful i id m Hm) as Hf. destruct m; try discriminate.
    exact (Hlog i id _ Hm).
Qed.

End EnricherFacts.

(** ** What getTokenData guarantees *)

Section EnricherGuarantees.

Variable remote : Remote.t.
Variable window_accountId : option string.
Variable accountId_param : option string.

Lemma enriched_unique (recs1 recs2 : list TokenData) :
  map accountId recs1 = map accountId recs2 ->
  Forall (enriched_from_remote remote window_accountId accountId_param) recs1 ->
  Forall (enriched_from_remote remote window_accountId accountId_param) recs2 ->
  recs1 = recs2.
Proof.
  revert recs2. induction recs1 as [|r1 recs1 IH]; intros [|r2 recs2] Hacc H1 H2;
    try discriminate; [reflexivity|].
  inversion Hacc as [[Hid Hrest]]. inversion H1 as [|? ? Hr1 Hall1]; subst.
  inversion H2 as [|? ? Hr2 Hall2]; subst.
  rewrite (IH recs2 Hrest Hall1 Hall2). f_equal.
  destruct Hr1 as [Hm1 Hb1], Hr2 as [Hm2 Hb2]. rewrite <- Hid in Hm2, Hb2.
  destruct r1 as [id1 b1 md1], r2 as [id2 b2 md2]. cbn in *. subst id2.
  assert (md1 = md2) by congruence. subst md2.
  destruct (truthy_param accountId_param); [|congruence].
  assert (b1 = b2) by congruence. subst b2. reflexivity.
Qed.

Lemma calls_ok (sched : list Tick) :
  Forall (call_ok remote window_accountId accountId_param)
    (calls (Enricher.run remote window_accountId sched (getTokenData accountId_param))).
Proof.
  apply (sinv_calls remote window_accountId accountId_param).
  apply sync_inv_run, sync_inv_start.
Qed.

Lemma no_balance_call_when_falsy (sched : list Tick) (c : Call) :
  truthy_param accountId_param = false ->
  In c (calls (Enricher.run remote window_accountId sched (getTokenData accountId_param))) ->
  is_balance_call c = false.
Proof.
  intros Hf Hin. pose proof (calls_ok sched) as Hok.
  rewrite List.Forall_forall in Hok. specialize (Hok c Hin).
  destruct c as [f l|tk|id|id method args]; try reflexivity.
  destruct Hok as [(_ & _ & Ht)|(-> & _ & _)]; [congruence | reflexivity].
Qed.

Lemma balance_call_args (sched : list Tick) (id method : string) (args : Args) :
  In (Call_viewFunction id method args)
     (calls (Enricher.run remote window_accountId sched (getTokenData accountId_param))) ->
  method = "ft_balance_of" ->
  args = AccountIdArg window_accountId /\ truthy_param accountId_param = true.
Proof.
  intros Hin Hm. pose proof (calls_ok sched) as Hok.
  rewrite List.Forall_forall in Hok. specialize (Hok _ Hin).
  destruct Hok as [(_ & Ha & Ht)|(Hm' & _ & _)]; [split; assumption|].
  subst method. discriminate.
Qed.

(** C5: with [ids] the page the registry returns, whatever a schedule
    makes [getTokenData] resolve to is one record per identifier, in input
    order; and when every lookup resolves, any two schedules that let each
    entry's lookups settle, in whatever order, resolve to the same such
    sequence. *)
Theorem getTokenData_keeps_input_order (ids : list string) :
  get_tokens remote 0 100 = Resolved ids ->
  (forall sched arr,
      outcome (Enricher.run remote window_accountId sched (getTokenData accountId_param))
      = Some (Resolved arr) ->
      exists recs,
        arr = map Some recs /\ length recs = length ids /\ map accountId recs = ids)
  /\ (lookups_resolve remote window_accountId accountId_param ids ->
      forall ticks1 ticks2,
        (forall i, i < length ids -> 3 <= settles_of i ticks1) ->
        (forall i, i < length ids -> 3 <= settles_of i ticks2) ->
        exists recs,
          outcome (Enricher.run remote window_accountId (ListSettles :: ticks1)
                     (getTokenData accountId_param))
          = Some (Resolved (map Some recs))
          /\ outcome (Enricher.run remote window_accountId (ListSettles :: ticks2)
                        (getTokenData accountId_param))
             = Some (Resolved (map Some recs))
          /\ length recs = length ids
          /\ map accountId recs = ids).
Proof.
  intros Hlist. split.
  - intros sched arr Hout.
    destruct (resolved_in_order remote window_accountId accountId_param sched arr Hout)
      as (ids' & recs & Hlist' & Harr & Hacc & _).
    assert (Hsame : ids' = ids) by congruence. rewrite Hsame in Hacc.
    exists recs. split; [exact Harr|]. split; [|exact Hacc].
    rewrite <- Hacc. rewrite length_map. reflexivity.
  - intros Hres ticks1 ticks2 H1 H2.
    destruct (complete_schedule_resolves remote window_accountId accountId_param
                ids ticks1 Hlist Hres H1) as [(recs1 & Ho1 & Ha1 & He1) _].
    destruct (complete_schedule_resolves remote window_accountId accountId_param
                ids ticks2 Hlist Hres H2) as [(recs2 & Ho2 & Ha2 & He2) _].
    assert (recs1 = recs2) by (apply enriched_unique; congruence). subst recs2.
    exists recs1. split; [exact Ho1|]. split; [exact Ho2|]. split; [|exact Ha1].
    rewrite <- Ha1. rewrite length_map. reflexivity.
Qed.

(** C8 (as amended): the two lookups of an entry are sequential.  With a
    viewer, the metadata lookup of an identifier is issued only after its
    balance lookup was issued and resolved; so a rejected balance lookup
    keeps the metadata lookup from ever being attempted, while a metadata
    failure comes too late to affect the balance lookup. *)
Theorem metadata_lookup_follows_balance_lookup (sched : list Tick) (id : string) :
  truthy_param accountId_param = true ->
  let s := Enricher.run remote window_accountId sched (getTokenData accountId_param) in
  (In (metadata_call id) (calls s) ->
   In (balance_call window_accountId id) (calls s)
   /\ exists b, ft_balance_of remote id window_accountId = Resolved b)
  /\ (forall e, ft_balance_of remote id window_accountId = Rejected e ->
                ~ In (metadata_call id) (calls s)).
Proof.
  intros Ht s.
  assert (Hmain : In (metadata_call id) (calls s) ->
                  In (balance_call window_accountId id) (calls s)
                  /\ exists b, ft_balance_of remote id window_accountId = Resolved b).
  { intros Hin. split.
    - apply (sinv_order remote window_accountId accountId_param s); [|exact Hin|exact Ht].
      apply sync_inv_run, sync_inv_start.
    - pose proof (calls_ok sched) as Hok. rewrite List.Forall_forall in Hok.
      specialize (Hok _ Hin). cbn in Hok.
      destruct Hok as [(Hm & _)|(_ & _ & b & Hb)]; [discriminate|].
      unfold expected_balance in Hb. rewrite Ht in Hb.
      destruct (ft_balance_of remote id window_accountId) as [b'|e]; [|discriminate].
      exists b'. reflexivity. }
  split; [exact Hmain|].
  intros e He Hin. destruct (Hmain Hin) as [_ (b & Hb)]. congruence.
Qed.

(** C9: without a viewer identity (an absent or empty [accountId]
    argument) no schedule makes [getTokenData] issue an [ft_balance_of]
    call, every record it resolves to has a null balance and the metadata
    the remote side answers; and when the account and metadata lookups
    resolve, every complete schedule issues the metadata lookup of every
    entry and resolves to such records in input order. *)
Theorem absent_viewer_skips_balance_lookups (sched : list Tick) :
  truthy_param accountId_param = false ->
  let s := Enricher.run remote window_accountId sched (getTokenData accountId_param) in
  (forall c, In c (calls s) -> is_balance_call c = false)
  /\ (forall arr, outcome s = Some (Resolved arr) ->
        exists recs,
          arr = map Some recs
          /\ Forall (fun r => balance r = None
                              /\ ft_metadata remote (accountId r) = Resolved (metadata r))
               recs)
  /\ (forall ids ticks,
        get_tokens remote 0 100 = Resolved ids ->
        (forall id, In id ids ->
                    (exists u, account remote id = Resolved u)
                    /\ (exists md, ft_metadata remote id = Resolved md)) ->
        (forall i, i < length ids -> 3 <= settles_of i ticks) ->
        let s' := Enricher.run remote window_accountId (ListSettles :: ticks)
                    (getTokenData accountId_param) in
        (exists recs,
            outcome s' = Some (Resolved (map Some recs))
            /\ map accountId recs = ids
            /\ Forall (fun r => balance r = None) recs)
        /\ (forall id, In id ids -> In (metadata_call id) (calls s'))
        /\ (forall c, In c (calls s') -> is_balance_call c = false)).
Proof.
  intros Hf s.
  assert (Hnull : forall recs,
            Forall (enriched_from_remote remote window_accountId accountId_param) recs ->
            Forall (fun r => balance r = None
                             /\ ft_metadata remote (accountId r) = Resolved (metadata r))
              recs).
  { intros recs Hall. induction Hall as [|r recs [Hmd Hb] _ IH]; constructor; [|exact IH].
    rewrite Hf in Hb. split; assumption. }
  split; [|split].
  - intros c. apply no_balance_call_when_falsy. exact Hf.
  - intros arr Hout.
    destruct (resolved_in_order remote window_accountId accountId_param sched arr Hout)
      as (ids & recs & _ & Harr & _ & Henr).
    exists recs. split; [exact Harr | apply Hnull; exact Henr].
  - intros ids ticks Hlist Hres Hticks s'.
    assert (Hres' : lookups_resolve remote window_accountId accountId_param ids).
    { intros id Hin. destruct (Hres id Hin) as [Hu Hmd].
      split; [exact Hu|]. split; [congruence | exact Hmd]. }
    destruct (complete_schedule_resolves remote window_accountId accountId_param
                ids ticks Hlist Hres' Hticks) as [(recs & Ho & Ha & He) Hlog].
    split; [|split].
    + exists recs. split; [exact Ho|]. split; [exact Ha|].
      apply Hnull in He. clear - He.
      induction He as [|r recs [Hb _] _ IH]; constructor; assumption.
    + exact Hlog.
    + intros c. apply no_balance_call_when_falsy. exact Hf.
Qed.

(** C10: the [accountId] argument only gates the balance lookup.  With a
    falsy argument no balance call is issued; every balance call that is
    issued sends the global [window.accountId] as [account_id]; with a
    truthy argument the first entry's balance call for the global identity
    goes out as soon as its account handle is there; and the argument's own
    value is never sent unless it happens to equal the global one. *)
Theorem balance_lookup_uses_global_identity (sched : list Tick) :
  let s := Enricher.run remote window_accountId sched (getTokenData accountId_param) in
  (truthy_param accountId_param = false ->
   forall c, In c (calls s) -> is_balance_call c = false)
  /\ (forall id method args,
        In (Call_viewFunction id method args) (calls s) ->
        method = "ft_balance_of" ->
        args = AccountIdArg window_accountId /\ truthy_param accountId_param = true)
  /\ (accountId_param <> window_accountId ->
      forall id, ~ In (Call_viewFunction id "ft_balance_of" (AccountIdArg accountId_param))
                      (calls s))
  /\ (truthy_param accountId_param = true ->
      forall id ids,
        get_tokens remote 0 100 = Resolved (id :: ids) ->
        (exists u, account remote id = Resolved u) ->
        In (Call_viewFunction id "ft_balance_of" (AccountIdArg window_accountId))
           (calls (Enricher.run remote window_accountId [ListSettles; LookupSettles 0]
                     (getTokenData accountId_param)))).
Proof.
  intros s. split; [|split; [|split]].
  - intros Hf c. apply no_balance_call_when_falsy. exact Hf.
  - intros id method args. apply balance_call_args.
  - intros Hne id Hin.
    destruct (balance_call_args sched id _ _ Hin eq_refl) as [Ha _]. congruence.
  - intros Ht id ids Hlist (u & Hu).
    cbn [Enricher.run fold_left]. unfold Enricher.step at 2.
    cbn [phase getTokenData arg calls]. rewrite Hlist.
    unfold pMap, next. cbn [isRejected resolvingCount length Nat.eqb].
    unfold Enricher.step. cbn [phase arg calls].
    unfold pMap_settle. cbn [mappers map lookup list_lookup is_settled].
    cbn [mapper_resume]. rewrite Hu, Ht. cbn [calls after set_mapper].
    apply in_app_iff. right. left. reflexivity.
Qed.

End EnricherGuarantees.

(** * Concrete runs *)

Section Runs.

Import App Samples.

(** C1, on a payload that parses but reports another failure: nothing is
    shown, alerted or re-raised. *)
Lemma rejection_parsed_unmatched_is_silent_witness :
  let e := mkError (execution_error_text out_of_gas_reason) in
  let st := onSubmit_begin (onChange "usdc.test" (mount alice)) in
  Samples.JSON_parse (message e) = Some (execution_error_value out_of_gas_reason)
  /\ isNotTokenAccount (execution_error_value out_of_gas_reason) = Some false
  /\ (let '(st', c) := onSubmit_resume Samples.JSON_parse alice (Rejected e) st in
      c = Returns
      /\ alerts st' = alerts st
      /\ uncaught st' = uncaught st
      /\ timers st' = timers st
      /\ rendered_notification st' = rendered_notification st).
Proof.
  intros e st. split; [vm_compute; reflexivity|]. split; [vm_compute; reflexivity|].
  apply (rejection_parsed_unmatched_is_silent Samples.JSON_parse alice e
           (execution_error_value out_of_gas_reason) st);
    vm_compute; reflexivity.
Defined.

(** The other three shapes of a rejection, on the sample messages. *)
Lemma rejection_samples :
  let st := onSubmit_begin (onChange "nft.test" (mount alice)) in
  (let '(st', c) :=
     onSubmit_resume Samples.JSON_parse alice
       (Rejected (mkError (execution_error_text not_a_token_reason))) st in
   c = Returns /\ alerts st' = []
   /\ rendered_notification st' = Some (not_a_token_message, true))
  /\ (let '(st', c) :=
        onSubmit_resume Samples.JSON_parse alice (Rejected (mkError wallet_message)) st in
      c = Throws (mkError wallet_message) /\ alerts st' = [alert_message]
      /\ rendered_notification st' = None).
Proof. vm_compute. repeat split; reflexivity. Qed.

(** C2: submitting the freshly mounted form, whose input is empty, calls
    [add_token] with the empty identifier. *)
Lemma empty_identifier_reaches_add_token :
  token_value (mount None) = ""
  /\ contract_calls (App.run Samples.JSON_parse None Samples.remote [Submit] (mount None))
     = [Call_add_token ""].
Proof. split; reflexivity. Qed.

(** C3: the newer message, shown at 5000 ms, is gone when the first
    notification's window ends at 11000 ms; the timer set at 0 ms is still
    pending next to the new one and clears it. *)
Lemma stale_timer_hides_newer_notification :
  now two_submits = 5000%Z
  /\ timers two_submits = [11000%Z; 16000%Z]
  /\ rendered_notification two_submits = Some ("Added b.test to the token list", false)
  /\ rendered_notification (elapse 11000 two_submits) = None.
Proof. vm_compute. repeat split; reflexivity. Qed.

Lemma two_submits_timers : timers two_submits = [11000%Z; 16000%Z].
Proof. vm_compute. reflexivity. Qed.

Lemma show_keeps_pending_timers_witness :
  (exists d, In d (timers two_submits) /\ (d <= 11000)%Z)
  /\ rendered_notification (elapse 11000 two_submits) = None
  /\ (forall d, In d (timers two_submits) -> (10999 < d)%Z)
  /\ rendered_notification (elapse 10999 two_submits)
     = rendered_notification two_submits.
Proof.
  assert (H1 : exists d, In d (timers two_submits) /\ (d <= 11000)%Z).
  { exists 11000%Z. rewrite two_submits_timers. split; [left; reflexivity | lia]. }
  assert (H2 : forall d, In d (timers two_submits) -> (10999 < d)%Z).
  { intros d Hd. rewrite two_submits_timers in Hd. destruct Hd as [<-|[<-|[]]]; lia. }
  split; [exact H1|].
  split; [exact (proj1 (proj2 (proj2 (show_keeps_pending_timers two_submits 11000))) H1)|].
  split; [exact H2|].
  exact (proj2 (proj2 (proj2 (show_keeps_pending_timers two_submits 10999))) H2).
Defined.

(** C6, on that state: the second submit succeeds and its notification is
    rendered as a failure. *)
Lemma success_keeps_stale_failure_flag_witness :
  isFailureNotification failure_then_submit = true
  /\ rendered_notification
       (fst (onSubmit_resume Samples.JSON_parse alice (Resolved true) failure_then_submit))
     = Some ("Added " ++ token_value failure_then_submit ++ " to the token list", true).
Proof.
  split; [vm_compute; reflexivity|].
  apply (success_keeps_stale_failure_flag Samples.JSON_parse alice true failure_then_submit).
  vm_compute. reflexivity.
Defined.

Lemma success_after_failure_run :
  rendered_notification
    (App.run Samples.JSON_parse alice Samples.remote [AddSettles (Resolved true)]
       failure_then_submit)
  = Some ("Added usdc.test to the token list", true).
Proof. vm_compute. reflexivity. Qed.

Lemma sample_lookups_resolve (g a : option string) :
  lookups_resolve Samples.remote g a ["a.test"; "b.test"].
Proof.
  intros id _. split; [exists tt; reflexivity|].
  split; [intros _; eexists; reflexivity | eexists; reflexivity].
Qed.

Lemma second_first_complete (i : nat) : i < 2 -> 3 <= settles_of i second_first.
Proof. intros Hi. destruct i as [|[|i]]; cbn; lia. Qed.

Lemma first_second_complete (i : nat) : i < 2 -> 3 <= settles_of i first_second.
Proof. intros Hi. destruct i as [|[|i]]; cbn; lia. Qed.

Lemma interleaved_complete (i : nat) : i < 2 -> 3 <= settles_of i interleaved.
Proof. intros Hi. destruct i as [|[|i]]; cbn; lia. Qed.

Lemma getTokenData_keeps_input_order_witness :
  get_tokens Samples.remote 0 100 = Resolved ["a.test"; "b.test"]
  /\ lookups_resolve Samples.remote alice alice ["a.test"; "b.test"]
  /\ exists recs,
       outcome (Enricher.run Samples.remote alice (ListSettles :: second_first)
                  (getTokenData alice))
       = Some (Resolved (map Some recs))
       /\ outcome (Enricher.run Samples.remote alice (ListSettles :: interleaved)
                     (getTokenData alice))
          = Some (Resolved (map Some recs))
       /\ length recs = 2
       /\ map accountId recs = ["a.test"; "b.test"].
Proof.
  split; [reflexivity|]. split; [apply sample_lookups_resolve|].
  apply (proj2 (getTokenData_keeps_input_order Samples.remote alice alice
                  ["a.test"; "b.test"] eq_refl)
           (sample_lookups_resolve alice alice) second_first interleaved
           second_first_complete interleaved_complete).
Defined.

(** C8: every balance lookup rejects, every metadata lookup would resolve;
    after a complete schedule the balance lookup of "a.test" has been
    issued and its metadata lookup has not. *)
Lemma rejected_balance_lookup_blocks_metadata :
  let s := Enricher.run remote_without_balances alice (ListSettles :: first_second)
             (getTokenData alice) in
  In (balance_call alice "a.test") (calls s)
  /\ ft_metadata remote_without_balances "a.test" = Resolved usdc_metadata
  /\ ~ In (metadata_call "a.test") (calls s).
Proof.
  intros s. split; [vm_compute; tauto|]. split; [reflexivity|].
  intros H. vm_compute in H.
  repeat (destruct H as [H|H]; [discriminate H|]). exact H.
Qed.

Lemma metadata_lookup_follows_balance_lookup_witness :
  truthy_param alice = true
  /\ ft_balance_of remote_without_balances "a.test" alice
     = Rejected (mkError "ft_balance_of: method not found")
  /\ ~ In (metadata_call "a.test")
          (calls (Enricher.run remote_without_balances alice (ListSettles :: first_second)
                    (getTokenData alice))).
Proof.
  split; [reflexivity|]. split; [reflexivity|].
  exact (proj2 (metadata_lookup_follows_balance_lookup remote_without_balances alice alice
                  (ListSettles :: first_second) "a.test" eq_refl)
           (mkError "ft_balance_of: method not found") eq_refl).
Defined.

Lemma absent_viewer_skips_balance_lookups_witness :
  truthy_param None = false
  /\ get_tokens Samples.remote 0 100 = Resolved ["a.test"; "b.test"]
  /\ (let s' := Enricher.run Samples.remote None (ListSettles :: second_first)
                  (getTokenData None) in
      (exists recs,
          outcome s' = Some (Resolved (map Some recs))
          /\ map accountId recs = ["a.test"; "b.test"]
          /\ Forall (fun r => balance r = None) recs)
      /\ (forall id, In id ["a.test"; "b.test"] -> In (metadata_call id) (calls s'))
      /\ (forall c, In c (calls s') -> is_balance_call c = false)).
Proof.
  split; [reflexivity|]. split; [reflexivity|].
  apply (proj2 (proj2 (absent_viewer_skips_balance_lookups Samples.remote None None []
                         eq_refl))
           ["a.test"; "b.test"] second_first eq_refl).
  - intros id _. split; [exists tt; reflexivity | eexists; reflexivity].
  - exact second_first_complete.
Defined.

(** The end-to-end scenario of the registry with two entries and no
    viewer: both balance cells show "-". *)
Lemma absent_viewer_cells (pow : number -> number -> number) :
  exists r1 r2,
    outcome (Enricher.run Samples.remote None (ListSettles :: first_second)
               (getTokenData None))
    = Some (Resolved [Some r1; Some r2])
    /\ balance_cell pow (balance r1) (metadata r1) = Text "-"
    /\ balance_cell pow (balance r2) (metadata r2) = Text "-".
Proof.
  eexists. eexists. split; [vm_compute; reflexivity|]. split; reflexivity.
Qed.

(** C10: the argument says alice, the global says bob: the balance of bob
    is queried, and no call mentions alice. *)
Lemma balance_lookup_uses_global_identity_witness :
  alice <> bob
  /\ truthy_param alice = true
  /\ In (Call_viewFunction "a.test" "ft_balance_of" (AccountIdArg bob))
        (calls (Enricher.run Samples.remote bob [ListSettles; LookupSettles 0]
                  (getTokenData alice)))
  /\ (forall id,
         ~ In (Call_viewFunction id "ft_balance_of" (AccountIdArg alice))
              (calls (Enricher.run Samples.remote bob (ListSettles :: second_first)
                        (getTokenData alice)))).
Proof.
  assert (Hne : alice <> bob) by discriminate.
  split; [exact Hne|]. split; [reflexivity|]. split.
  - apply (proj2 (proj2 (proj2 (balance_lookup_uses_global_identity Samples.remote bob alice [])))
             eq_refl "a.test" ["b.test"] eq_refl).
    exists tt. reflexivity.
  - apply (proj1 (proj2 (proj2 (balance_lookup_uses_global_identity Samples.remote bob alice
                                  (ListSettles :: second_first))))
             Hne).
Defined.

End Runs.

(** * The rest of getTokenData's behaviour *)

Section EnricherTraces.

Variable remote : Remote.t.
Variable window_accountId : option string.
Variable accountId_param : option string.

Local Abbreviation pmap_inv :=
  (Invariant.pmap_inv remote window_accountId accountId_param).
Local Abbreviation sync_inv :=
  (Invariant.sync_inv remote window_accountId accountId_param).
Local Abbreviation resume_at :=
  (Invariant.resume_at remote window_accountId accountId_param).
Local Abbreviation history_ok :=
  (Trace.history_ok remote window_accountId accountId_param).
Local Abbreviation histories_ok :=
  (Trace.histories_ok remote window_accountId accountId_param).
Local Abbreviation rejection_for :=
  (Trace.rejection_for remote window_accountId accountId_param).
Local Abbreviation log_shape :=
  (Trace.log_shape remote window_accountId accountId_param).
Local Abbreviation budget := (Trace.budget accountId_param).
Local Abbreviation lookups_per_entry := (Trace.lookups_per_entry accountId_param).
Local Abbreviation lookup_of := (Trace.lookup_of window_accountId).
Local Abbreviation start := (getTokenData accountId_param).
Local Abbreviation run_from := (Enricher.run remote window_accountId).
Local Abbreviation step_from := (Enricher.step remote window_accountId).
Local Abbreviation settle_at :=
  (pMap_settle remote window_accountId accountId_param).
Local Abbreviation resume :=
  (mapper_resume remote window_accountId accountId_param).

(** *** A settled promise stays as it is *)

Lemma promise_after_stable (i : nat) (m' : Mapper) (p1 : PMap)
  (v : Settled (list (option TokenData))) :
  promise p1 = Some v -> promise (after i m' p1) = Some v.
Proof.
  intros Hp. destruct m' as [| |b|d|e]; try exact Hp.
  - unfold after, on_fulfilled. rewrite next_promise. cbn [promise]. rewrite Hp. reflexivity.
  - unfold after, on_rejected.
    match goal with |- promise (settle ?w ?q) = _ =>
      destruct (settle_fields w q) as (_ & _ & _ & ->) end.
    cbn [promise]. rewrite Hp. reflexivity.
Qed.

Lemma promise_settle_stable (i : nat) (p : PMap)
  (v : Settled (list (option TokenData))) :
  promise p = Some v -> promise (fst (settle_at i p)) = Some v.
Proof.
  intros Hp.
  destruct (pMap_settle_cases remote window_accountId accountId_param i p)
    as [->|(id & m & m' & cs & _ & _ & _ & ->)]; [exact Hp|].
  cbn [fst]. apply promise_after_stable. exact Hp.
Qed.

Lemma outcome_step_stable (s : Sync) (t : Tick)
  (v : Settled (list (option TokenData))) :
  outcome s = Some v -> outcome (step_from s t) = Some v.
Proof.
  unfold outcome, Enricher.step. intros Hv.
  destruct t as [|i]; destruct (phase s) as [|e|p] eqn:Hph;
    try discriminate; rewrite ?Hph; try exact Hv.
  pose proof (promise_settle_stable i p v Hv) as Hst.
  rewrite (surjective_pairing (pMap_settle remote window_accountId (arg s) i p)).
  cbn [phase].
  destruct (pMap_settle_cases remote window_accountId (arg s) i p)
    as [->|(id & m & m' & cs & _ & _ & _ & ->)]; [exact Hv|].
  cbn [fst]. apply promise_after_stable. exact Hv.
Qed.

Lemma outcome_run_stable (sched : list Tick) (s : Sync)
  (v : Settled (list (option TokenData))) :
  outcome s = Some v -> outcome (run_from sched s) = Some v.
Proof.
  revert s. induction sched as [|t sched IH]; intros s Hv; [exact Hv|].
  cbn. apply IH. apply outcome_step_stable. exact Hv.
Qed.


(** *** The list request *)

Lemma run_after_list_rejection (e : Error) (sched : list Tick) :
  get_tokens remote 0 100 = Rejected e ->
  run_from sched (mkSync accountId_param (ListRejected e) [Call_get_tokens 0 100])
  = mkSync accountId_param (ListRejected e) [Call_get_tokens 0 100].
Proof.
  intros _. induction sched as [|t sched IH]; [reflexivity|].
  cbn. destruct t; exact IH.
Qed.

(** X2: when the list request is rejected with [e], [getTokenData] issues
    no other call, whatever the schedule: it is pending until the list
    request settles and rejected with that same [e] from then on. *)
Theorem list_rejection_ends_getTokenData (e : Error) (sched : list Tick) :
  get_tokens remote 0 100 = Rejected e ->
  let s := run_from sched start in
  calls s = [Call_get_tokens 0 100]
  /\ (outcome s = None \/ outcome s = Some (Rejected e))
  /\ (In ListSettles sched -> outcome s = Some (Rejected e)).
Proof.
  intros Hlist. cbn zeta. induction sched as [|t sched IH].
  - split; [reflexivity|]. split; [left; reflexivity | intros []].
  - destruct t as [|i].
    + assert (Hstep : run_from (ListSettles :: sched) start
                      = mkSync accountId_param (ListRejected e) [Call_get_tokens 0 100]).
      { change (run_from sched (step_from start ListSettles)
                = mkSync accountId_param (ListRejected e) [Call_get_tokens 0 100]).
        unfold Enricher.step. cbn [phase getTokenData arg calls].
        rewrite Hlist. apply (run_after_list_rejection e sched Hlist). }
      rewrite Hstep. split; [reflexivity|]. split; [right; reflexivity|].
      intros _. reflexivity.
    + assert (Hstep : run_from (LookupSettles i :: sched) start = run_from sched start)
        by reflexivity.
      rewrite Hstep. destruct IH as (H1 & H2 & H3).
      split; [exact H1|]. split; [exact H2|].
      intros [Hin|Hin]; [discriminate | exact (H3 Hin)].
Qed.

(** *** What lies behind every mapper *)

Lemma history_resume (id : string) (m : Mapper) :
  history_ok id m -> history_ok id (fst (resume id m)).
Proof.
  intros Hh. destruct m as [| |b|d|e]; cbn [mapper_resume].
  - destruct (account remote id) as [u|e] eqn:Hu.
    + destruct (truthy_param accountId_param) eqn:Ht; cbn.
      * split; [exact Ht | exists u; exact Hu].
      * exists u. exact Hu.
    + cbn. left. exact Hu.
  - destruct Hh as [Ht Hu].
    destruct (ft_balance_of remote id window_accountId) as [b|e] eqn:Hb; cbn.
    + exact Hu.
    + right. left. split; assumption.
  - destruct (ft_metadata remote id) as [md|e] eqn:Hmd; cbn.
    + exact Hh.
    + right. right. exact Hmd.
  - exact Hh.
  - exact Hh.
Qed.

Lemma rejected_by_after (i : nat) (id : string) (m m' : Mapper) (p : PMap) :
  mappers p !! i = Some (id, m) ->
  is_settled m = false ->
  rejected_by_mapper p ->
  rejected_by_mapper (after i m' (set_mapper i (id, m') p)).
Proof.
  intros Hi Hs Hrej. unfold rejected_by_mapper in *.
  assert (Hkeep : forall e, (exists j id', mappers p !! j = Some (id', Failed e)) ->
            exists j id', <[i := (id, m')]> (mappers p) !! j = Some (id', Failed e)).
  { intros e (j & id' & Hj). exists j, id'.
    rewrite (lookup_set_mapper _ _ _ _ _ Hi).
    destruct (decide (i = j)) as [<-|Hne]; [|exact Hj].
    rewrite Hi in Hj. inversion Hj; subst. discriminate. }
  rewrite mappers_after. cbn [set_mapper mappers].
  destruct m' as [| |b|d|e].
  - cbn [after set_mapper promise].
    destruct (promise p) as [[arr|e]|]; try exact I. apply Hkeep. exact Hrej.
  - cbn [after set_mapper promise].
    destruct (promise p) as [[arr|e]|]; try exact I. apply Hkeep. exact Hrej.
  - cbn [after set_mapper promise].
    destruct (promise p) as [[arr|e]|]; try exact I. apply Hkeep. exact Hrej.
  - unfold after, on_fulfilled. rewrite next_promise.
    cbn [set_mapper promise isRejected resolvingCount result].
    destruct (promise p) as [[arr|e]|]; try exact I.
    + apply Hkeep. exact Hrej.
    + destruct (isRejected p); [exact I|].
      destruct (Nat.eqb (Nat.pred (resolvingCount p)) 0); exact I.
  - unfold after, on_rejected.
    match goal with |- context [promise (settle ?w ?q)] =>
      destruct (settle_fields w q) as (_ & _ & _ & ->) end.
    cbn [set_mapper promise].
    destruct (promise p) as [[arr|e']|]; try exact I.
    + apply Hkeep. exact Hrej.
    + exists i, id. apply list_lookup_insert_eq. apply (lookup_lt_Some _ _ _ Hi).
Qed.

Lemma histories_start : histories_ok start.
Proof. exact I. Qed.

Lemma histories_step (s : Sync) (t : Tick) :
  arg s = accountId_param -> histories_ok s -> histories_ok (step_from s t).
Proof.
  intros Harg Hh. unfold Trace.histories_ok, Enricher.step in *.
  destruct t as [|i]; destruct (phase s) as [|e|p] eqn:Hph;
    rewrite ?Hph; try exact Hh; try exact I.
  - destruct (get_tokens remote 0 100) as [ids|e]; [|exact I].
    unfold pMap. cbn [phase]. rewrite mappers_next. cbn [mappers]. split.
    + intros i id m Hi. rewrite lookup_started in Hi.
      destruct (ids !! i); inversion Hi; subst m. exact I.
    + unfold rejected_by_mapper. rewrite next_promise.
      cbn [promise isRejected resolvingCount result].
      destruct (Nat.eqb (length ids) 0); exact I.
  - rewrite Harg.
    rewrite (surjective_pairing (pMap_settle remote window_accountId accountId_param i p)).
    cbn [phase]. destruct Hh as [Hall Hrej]. split.
    + intros j id m Hj. rewrite lookup_pMap_settle in Hj.
      destruct (decide (i = j)) as [<-|Hne]; [|exact (Hall j id m Hj)].
      destruct (mappers p !! i) as [[id0 m0]|] eqn:Hi; [|discriminate].
      cbn in Hj. inversion Hj; subst id m.
      apply history_resume. exact (Hall i id0 m0 Hi).
    + destruct (pMap_settle_cases remote window_accountId accountId_param i p)
        as [->|(id & m & m' & cs & Hi & Hs & _ & ->)]; [exact Hrej|].
      cbn [fst]. apply (rejected_by_after i id m m' p Hi Hs Hrej).
Qed.

Lemma arg_step (s : Sync) (t : Tick) : arg (step_from s t) = arg s.
Proof.
  unfold Enricher.step. destruct t as [|i]; destruct (phase s) as [|e|p]; try reflexivity.
  - destruct (get_tokens remote 0 100) as [ids|e]; [|reflexivity].
    destruct (pMap ids); reflexivity.
  - destruct (pMap_settle remote window_accountId (arg s) i p); reflexivity.
Qed.

Lemma histories_run (sched : list Tick) (s : Sync) :
  arg s = accountId_param -> histories_ok s -> histories_ok (run_from sched s).
Proof.
  revert s. induction sched as [|t sched IH]; intros s Harg Hh; [exact Hh|].
  cbn. apply IH; [rewrite arg_step; exact Harg | apply histories_step; assumption].
Qed.

Lemma resolved_needs_lookups
  (sched : list Tick) (ids : list string) (arr : list (option TokenData)) :
  get_tokens remote 0 100 = Resolved ids ->
  outcome (run_from sched start) = Some (Resolved arr) ->
  lookups_resolve remote window_accountId accountId_param ids.
Proof.
  intros Hlist Hout id Hin.
  pose proof (sync_inv_run remote window_accountId accountId_param sched _
                (sync_inv_start remote window_accountId accountId_param))
    as [_ Hph _ _].
  pose proof (histories_run sched start eq_refl histories_start) as Hh.
  unfold Trace.histories_ok in Hh. unfold outcome in Hout.
  destruct (phase (run_from sched start)) as [|e|p]; try discriminate.
  destruct Hph as (ids' & Hlist' & Hinv & _).
  assert (Hsame : ids' = ids) by congruence. rewrite Hsame in Hinv. clear Hsame Hlist'.
  destruct Hh as [Hall _].
  apply list_elem_of_In, list_elem_of_lookup_1 in Hin. destruct Hin as [i Hi].
  pose proof (Invariant.inv_ids _ _ _ _ _ Hinv i) as Hfst. rewrite Hi in Hfst.
  destruct (mappers p !! i) as [[id' m]|] eqn:Hm; [|discriminate].
  cbn in Hfst. inversion Hfst; subst id'.
  pose proof (Invariant.inv_promise _ _ _ _ _ Hinv) as Hpr. rewrite Hout in Hpr.
  destruct Hpr as (_ & H0 & _).
  rewrite (Invariant.inv_count _ _ _ _ _ Hinv) in H0.
  pose proof (pending_zero_fulfilled _ _ _ _ H0 Hm) as Hf.
  destruct m as [| |b|d|e]; try discriminate.
  pose proof (Hall i id _ Hm) as Hacc. cbn in Hacc.
  pose proof (Invariant.inv_ok _ _ _ _ _ Hinv i id _ Hm) as Hexp. cbn in Hexp.
  destruct (expected_spec remote window_accountId accountId_param id d Hexp)
    as [Hid [Hmd Hbal]].
  rewrite Hid in Hmd, Hbal.
  split; [exact Hacc|]. split.
  - intros Ht. rewrite Ht in Hbal. exists (balance d). exact Hbal.
  - exists (metadata d). exact Hmd.
Qed.

(** X3: [getTokenData] resolves only if every call it made resolved: the
    account handle, the metadata lookup and, with a viewer, the balance
    lookup of every identifier of the page.  One rejected lookup of one
    entry keeps every schedule from resolving. *)
Theorem getTokenData_resolves_only_if_all_lookups_do
  (sched : list Tick) (ids : list string) (arr : list (option TokenData)) :
  get_tokens remote 0 100 = Resolved ids ->
  outcome (run_from sched start) = Some (Resolved arr) ->
  lookups_resolve remote window_accountId accountId_param ids.
Proof. apply resolved_needs_lookups. Qed.

Lemma list_rejected_reason (sched : list Tick) (s : Sync) (e : Error) :
  (forall e', phase s = ListRejected e' -> get_tokens remote 0 100 = Rejected e') ->
  phase (run_from sched s) = ListRejected e ->
  get_tokens remote 0 100 = Rejected e.
Proof.
  revert s. induction sched as [|t sched IH]; intros s Hs Hph; [exact (Hs e Hph)|].
  apply (IH (step_from s t)); [|exact Hph].
  intros e' He'. unfold Enricher.step in He'.
  destruct t as [|i]; destruct (phase s) as [|e0|p] eqn:Hps;
    rewrite ?Hps in He'; try discriminate; try (apply Hs; exact He').
  - destruct (get_tokens remote 0 100) as [ids|e0] eqn:Hl.
    + destruct (pMap ids); discriminate.
    + cbn in He'. congruence.
  - destruct (pMap_settle remote window_accountId (arg s) i p); discriminate.
Qed.

(** X4: the reason [getTokenData] rejects with is never of its own making:
    it is the reason the list request was rejected with, or the reason a
    call made for one identifier of the page (account handle, balance
    lookup with a viewer, metadata lookup) was rejected with. *)
Theorem getTokenData_rejects_with_a_remote_reason (sched : list Tick) (e : Error) :
  outcome (run_from sched start) = Some (Rejected e) ->
  get_tokens remote 0 100 = Rejected e
  \/ exists ids id,
       get_tokens remote 0 100 = Resolved ids
       /\ In id ids
       /\ rejection_for id e.
Proof.
  intros Hout.
  pose proof (sync_inv_run remote window_accountId accountId_param sched _
                (sync_inv_start remote window_accountId accountId_param))
    as [_ Hph _ _].
  pose proof (histories_run sched start eq_refl histories_start) as Hh.
  unfold Trace.histories_ok in Hh. unfold outcome in Hout.
  destruct (phase (run_from sched start)) as [|e0|p] eqn:Hphase; try discriminate.
  - (* the list request was rejected *)
    left. inversion Hout; subst e0.
    apply (list_rejected_reason sched start); [discriminate | exact Hphase].
  - destruct Hph as (ids & Hlist & Hinv & _). destruct Hh as [Hall Hrej].
    unfold rejected_by_mapper in Hrej. rewrite Hout in Hrej.
    destruct Hrej as (i & id & Hm).
    right. exists ids, id. split; [exact Hlist|]. split.
    + apply list_elem_of_In. apply (list_elem_of_lookup_2 _ i).
      rewrite <- (Invariant.inv_ids _ _ _ _ _ Hinv i), Hm. reflexivity.
    + exact (Hall i id _ Hm).
Qed.

End EnricherTraces.

(** * The log of getTokenData *)

Section EnricherLog.

Variable remote : Remote.t.
Variable window_accountId : option string.
Variable accountId_param : option string.

Local Abbreviation sync_inv :=
  (Invariant.sync_inv remote window_accountId accountId_param).
Local Abbreviation log_shape :=
  (Trace.log_shape remote window_accountId accountId_param).
Local Abbreviation budget := (Trace.budget accountId_param).
Local Abbreviation lookups_per_entry := (Trace.lookups_per_entry accountId_param).
Local Abbreviation lookup_of := (Trace.lookup_of window_accountId).
Local Abbreviation start := (getTokenData accountId_param).
Local Abbreviation run_from := (Enricher.run remote window_accountId).
Local Abbreviation step_from := (Enricher.step remote window_accountId).
Local Abbreviation resume :=
  (mapper_resume remote window_accountId accountId_param).

Lemma list_sum_insert (f : string * Mapper -> nat) (ms : list (string * Mapper))
  (i : nat) (x y : string * Mapper) :
  ms !! i = Some x ->
  list_sum (map f (<[i := y]> ms)) + f x = list_sum (map f ms) + f y.
Proof.
  revert i. induction ms as [|z ms IH]; intros i Hi; [discriminate|].
  destruct i as [|i].
  - inversion Hi; subst.
    change (f y + list_sum (map f ms) + f x = f x + list_sum (map f ms) + f y). lia.
  - specialize (IH i Hi).
    change (f z + list_sum (map f (<[i := y]> ms)) + f x
            = f z + list_sum (map f ms) + f y). lia.
Qed.

Lemma budget_started (ids : list string) :
  list_sum (map budget (map (fun id => (id, AwaitAccount)) ids))
  = length ids * lookups_per_entry.
Proof.
  induction ids as [|id ids IH]; [reflexivity|].
  change (budget (id, AwaitAccount)
          + list_sum (map budget (map (fun id => (id, AwaitAccount)) ids))
          = S (length ids) * lookups_per_entry).
  rewrite IH. unfold Trace.budget. cbn [snd]. lia.
Qed.

Lemma resume_budget (id : string) (m m' : Mapper) (cs : list Call) :
  resume id m = (m', cs) -> budget (id, m') + length cs <= budget (id, m).
Proof.
  unfold Trace.budget, Trace.lookups_per_entry. cbn [snd].
  destruct m as [| |b|d|e]; cbn [mapper_resume]; intros H.
  - destruct (account remote id); [|inversion H; subst; cbn; lia].
    destruct (truthy_param accountId_param); inversion H; subst; cbn; lia.
  - destruct (ft_balance_of remote id window_accountId); inversion H; subst; cbn; lia.
  - destruct (ft_metadata remote id); inversion H; subst; cbn; lia.
  - inversion H; subst; cbn; lia.
  - inversion H; subst; cbn; lia.
Qed.

Lemma resume_lookups (ids : list string) (id : string) (m m' : Mapper) (cs : list Call) :
  In id ids -> resume id m = (m', cs) -> Forall (lookup_of ids) cs.
Proof.
  intros Hin Hr.
  destruct (mapper_resume_calls remote window_accountId accountId_param id m m' cs Hr)
    as [[-> _]|[(_ & _ & _ & ->)|[(_ & _ & ->)|(_ & _ & _ & ->)]]].
  - constructor.
  - constructor; [|constructor]. exists id. split; [exact Hin | left; reflexivity].
  - constructor; [|constructor]. exists id. split; [exact Hin | right; reflexivity].
  - constructor; [|constructor]. exists id. split; [exact Hin | right; reflexivity].
Qed.

Lemma log_shape_start : log_shape start.
Proof. reflexivity. Qed.

Lemma log_shape_step (s : Sync) (t : Tick) :
  sync_inv s -> log_shape s -> log_shape (step_from s t).
Proof.
  intros [Harg Hph _ _] Hlog. unfold Trace.log_shape, Enricher.step in *.
  destruct t as [|j]; destruct (phase s) as [|e|p] eqn:Hphase;
    rewrite ?Hphase; try exact Hlog.
  - (* the list settles *)
    destruct (get_tokens remote 0 100) as [ids|e] eqn:Hlist; [|exact Hlog].
    unfold pMap. cbn [phase calls]. rewrite mappers_next. cbn [mappers].
    exists ids, []. split; [reflexivity|]. split.
    + rewrite Hlog, app_nil_r. reflexivity.
    + split; [constructor|]. rewrite budget_started. cbn. lia.
  - (* a lookup settles *)
    destruct Hph as (ids0 & Hlist0 & Hinv & _).
    destruct Hlog as (ids & rest & Hlist & Hcalls & Hall & Hbound).
    assert (Hsame : ids0 = ids) by congruence. rewrite Hsame in Hinv. clear Hsame Hlist0.
    rewrite Harg. clear Harg.
    destruct (pMap_settle_cases remote window_accountId accountId_param j p)
      as [Heq|(id & m & m' & cs & Hj & Hs & Hr & Heq)]; rewrite Heq; cbn [phase calls].
    + exists ids, rest. rewrite app_nil_r. repeat split; assumption.
    + assert (Hin : In id ids).
      { apply list_elem_of_In. apply (list_elem_of_lookup_2 _ j).
        rewrite <- (Invariant.inv_ids _ _ _ _ _ Hinv j), Hj. reflexivity. }
      exists ids, (rest ++ cs)%list. split; [exact Hlist|]. split.
      * rewrite Hcalls. cbn. rewrite <- app_assoc. reflexivity.
      * split.
        -- apply Forall_app. split; [exact Hall | apply (resume_lookups ids id m m' cs Hin Hr)].
        -- rewrite mappers_after. cbn [set_mapper mappers]. rewrite length_app.
           pose proof (list_sum_insert budget (mappers p) j (id, m) (id, m') Hj) as Hsum.
           pose proof (resume_budget id m m' cs Hr) as Hres.
           lia.
Qed.

Lemma log_shape_run (sched : list Tick) (s : Sync) :
  sync_inv s -> log_shape s -> log_shape (run_from sched s).
Proof.
  revert s. induction sched as [|t sched IH]; intros s Hs Hlog; [exact Hlog|].
  cbn. apply IH; [apply sync_inv_step; exact Hs | apply log_shape_step; assumption].
Qed.

Lemma log_shape_reached (sched : list Tick) : log_shape (run_from sched start).
Proof.
  apply log_shape_run; [apply sync_inv_start | apply log_shape_start].
Qed.

(** X5: [getTokenData] only reads.  Under every schedule its log is the
    one list request for the fixed page (0, 100), then, once the page is
    there, the account handles of all its identifiers in input order before
    any lookup, then nothing but balance lookups for the global identity
    and metadata lookups of identifiers of the page: never a second list
    request, never [add_token]. *)
Theorem getTokenData_log_shape (sched : list Tick) :
  let s := run_from sched start in
  calls s = [Call_get_tokens 0 100]
  \/ exists ids rest,
       get_tokens remote 0 100 = Resolved ids
       /\ calls s = (Call_get_tokens 0 100 :: map Call_account ids ++ rest)%list
       /\ Forall (lookup_of ids) rest.
Proof.
  cbn zeta. pose proof (log_shape_reached sched) as Hlog.
  unfold Trace.log_shape in Hlog.
  destruct (phase (run_from sched start)) as [|e|p]; [left; exact Hlog..|].
  destruct Hlog as (ids & rest & Hlist & Hcalls & Hall & _).
  right. exists ids, rest. repeat split; assumption.
Qed.

(** X6: no call is ever repeated or retried.  For a page of [ids], every
    schedule, however long, makes [getTokenData] issue at most one list
    request, one account handle per entry and, per entry, one metadata
    lookup plus, with a viewer, one balance lookup. *)
Theorem getTokenData_call_bound (sched : list Tick) (ids : list string) :
  get_tokens remote 0 100 = Resolved ids ->
  length (calls (run_from sched start))
  <= 1 + length ids + length ids * lookups_per_entry.
Proof.
  intros Hlist. pose proof (log_shape_reached sched) as Hlog.
  unfold Trace.log_shape in Hlog.
  destruct (phase (run_from sched start)) as [|e|p];
    [rewrite Hlog; cbn; lia..|].
  destruct Hlog as (ids' & rest & Hlist' & Hcalls & _ & Hbound).
  assert (Hsame : ids' = ids) by congruence. rewrite Hsame in Hcalls, Hbound.
  rewrite Hcalls. cbn [length]. rewrite length_app, length_map. lia.
Qed.

(** X7: an empty page resolves at once.  When the registry lists nothing,
    [getTokenData] resolves to the empty sequence as soon as the list
    request settles, having issued no other call, and stays so. *)
Theorem getTokenData_empty_page (ticks : list Tick) :
  get_tokens remote 0 100 = Resolved [] ->
  let s := run_from (ListSettles :: ticks) start in
  outcome s = Some (Resolved []) /\ calls s = [Call_get_tokens 0 100].
Proof.
  intros Hlist. cbn zeta. split.
  - change (outcome (run_from ticks (step_from start ListSettles)) = Some (Resolved [])).
    apply (outcome_run_stable remote window_accountId accountId_param).
    unfold outcome, Enricher.step. cbn [phase getTokenData arg calls].
    rewrite Hlist. reflexivity.
  - pose proof (log_shape_reached (ListSettles :: ticks)) as Hlog.
    unfold Trace.log_shape in Hlog.
    destruct (phase (run_from (ListSettles :: ticks) start)) as [|e|p];
      [exact Hlog..|].
    destruct Hlog as (ids & rest & Hlist' & Hcalls & Hall & _).
    assert (Hsame : ids = []) by congruence. rewrite Hsame in Hcalls, Hall.
    destruct rest as [|c rest]; [exact Hcalls|].
    inversion Hall as [|? ? (id & [] & _) _].
Qed.

End EnricherLog.

(** * getTokenData always settles *)

Section EnricherSettles.

Variable remote : Remote.t.
Variable window_accountId : option string.
Variable accountId_param : option string.

Local Abbreviation sync_inv :=
  (Invariant.sync_inv remote window_accountId accountId_param).
Local Abbreviation start := (getTokenData accountId_param).
Local Abbreviation run_from := (Enricher.run remote window_accountId).
Local Abbreviation step_from := (Enricher.step remote window_accountId).
Local Abbreviation resume :=
  (mapper_resume remote window_accountId accountId_param).

Lemma rank_resume (id : string) (m : Mapper) :
  Nat.min 3 (rank m + 1) <= rank (fst (resume id m)).
Proof.
  destruct m as [| |b|d|e]; cbn [mapper_resume].
  - destruct (account remote id); [|cbn; lia].
    destruct (truthy_param accountId_param); cbn; lia.
  - destruct (ft_balance_of remote id window_accountId); cbn; lia.
  - destruct (ft_metadata remote id); cbn; lia.
  - cbn; lia.
  - cbn; lia.
Qed.

Lemma run_ranks (ticks : list Tick) :
  forall (s : Sync) (p : PMap),
    arg s = accountId_param ->
    phase s = Mapping p ->
    exists p',
      phase (run_from ticks s) = Mapping p'
      /\ forall i id m, mappers p !! i = Some (id, m) ->
           exists m', mappers p' !! i = Some (id, m')
                      /\ Nat.min 3 (rank m + settles_of i ticks) <= rank m'.
Proof.
  induction ticks as [|t ticks IH]; intros s p Harg Hph.
  - exists p. split; [exact Hph|]. intros i id m Hi. exists m.
    split; [exact Hi|]. cbn [settles_of]. lia.
  - change (run_from (t :: ticks) s) with (run_from ticks (step_from s t)).
    destruct t as [|j].
    + assert (Hsame : step_from s ListSettles = s)
        by (unfold Enricher.step; rewrite Hph; reflexivity).
      rewrite Hsame. apply (IH s p Harg Hph).
    + set (p1 := fst (pMap_settle remote window_accountId accountId_param j p)).
      assert (Hph1 : phase (step_from s (LookupSettles j)) = Mapping p1).
      { unfold Enricher.step. rewrite Hph, Harg. subst p1.
        destruct (pMap_settle remote window_accountId accountId_param j p); reflexivity. }
      assert (Harg1 : arg (step_from s (LookupSettles j)) = accountId_param).
      { unfold Enricher.step. rewrite Hph.
        destruct (pMap_settle remote window_accountId (arg s) j p). exact Harg. }
      destruct (IH _ p1 Harg1 Hph1) as (p' & Hp' & Hrest).
      exists p'. split; [exact Hp'|].
      intros i id m Hi.
      assert (Hstep : exists m1, mappers p1 !! i = Some (id, m1)
                                 /\ Nat.min 3 (rank m + (if Nat.eqb i j then 1 else 0))
                                    <= rank m1).
      { subst p1. rewrite lookup_pMap_settle.
        destruct (decide (j = i)) as [->|Hne].
        - rewrite Hi. cbn [fmap option_fmap option_map].
          eexists. split; [reflexivity|]. rewrite Nat.eqb_refl. cbn [fst snd].
          apply rank_resume.
        - exists m. split; [exact Hi|].
          destruct (Nat.eqb_spec i j); [congruence|]. lia. }
      destruct Hstep as (m1 & H1 & Hr1).
      destruct (Hrest i id m1 H1) as (m' & Hm' & Hr').
      exists m'. split; [exact Hm'|]. cbn [settles_of]. lia.
Qed.

Lemma failures_step (s : Sync) (t : Tick) :
  arg s = accountId_param ->
  failures_marked s -> failures_marked (step_from s t).
Proof.
  intros Harg Hf. unfold failures_marked, Enricher.step in *.
  destruct t as [|i]; destruct (phase s) as [|e|p] eqn:Hph;
    rewrite ?Hph; try exact Hf; try exact I.
  - destruct (get_tokens remote 0 100) as [ids|e]; [|exact I].
    unfold pMap. cbn [phase]. rewrite mappers_next. cbn [mappers].
    intros i id e Hi. rewrite lookup_started in Hi.
    destruct (ids !! i); discriminate.
  - rewrite Harg.
    destruct (pMap_settle_cases remote window_accountId accountId_param i p)
      as [->|(id & m & m' & cs & Hi & Hs & _ & ->)]; [exact Hf|].
    cbn [phase]. intros j id' e Hj.
    rewrite mappers_after in Hj. cbn [set_mapper mappers] in Hj.
    rewrite (lookup_set_mapper _ _ _ _ _ Hi) in Hj.
    assert (Hold : j <> i -> isRejected p = true).
    { intros Hne. destruct (decide (i = j)) as [->|_]; [congruence|].
      exact (Hf j id' e Hj). }
    destruct m' as [| |b|d|e'].
    + cbn [after set_mapper isRejected].
      destruct (decide (i = j)); [discriminate | apply Hold; congruence].
    + cbn [after set_mapper isRejected].
      destruct (decide (i = j)); [discriminate | apply Hold; congruence].
    + cbn [after set_mapper isRejected].
      destruct (decide (i = j)); [discriminate | apply Hold; congruence].
    + unfold after, on_fulfilled.
      match goal with |- isRejected (next ?q) = _ =>
        destruct (next_fields q) as (_ & _ & ->) end.
      cbn [set_mapper isRejected].
      destruct (decide (i = j)); [discriminate | apply Hold; congruence].
    + unfold after, on_rejected.
      match goal with |- isRejected (settle ?w ?q) = _ =>
        destruct (settle_fields w q) as (_ & _ & -> & _) end.
      reflexivity.
Qed.

Lemma failures_run (sched : list Tick) (s : Sync) :
  arg s = accountId_param ->
  failures_marked s -> failures_marked (run_from sched s).
Proof.
  revert s. induction sched as [|t sched IH]; intros s Harg Hf; [exact Hf|].
  cbn. apply IH; [|apply failures_step; assumption].
  unfold Enricher.step. destruct t as [|i]; destruct (phase s) as [|e|p]; try exact Harg.
  - destruct (get_tokens remote 0 100) as [ids|e]; [|exact Harg].
    destruct (pMap ids). exact Harg.
  - destruct (pMap_settle remote window_accountId (arg s) i p). exact Harg.
Qed.

(** X17: [getTokenData] never hangs on settled lookups.  Once the list
    request has resolved and every entry has had its three settlements, in
    whatever order, the promise has settled: resolved if every lookup
    resolved, rejected otherwise. *)
Theorem getTokenData_settles_on_complete_schedules
  (ids : list string) (ticks : list Tick) :
  get_tokens remote 0 100 = Resolved ids ->
  (forall i, i < length ids -> 3 <= settles_of i ticks) ->
  let s := run_from (ListSettles :: ticks) start in
  (exists v, outcome s = Some v)
  /\ ((exists arr, outcome s = Some (Resolved arr))
      <-> lookups_resolve remote window_accountId accountId_param ids).
Proof.
  intros Hlist Hticks. cbn zeta.
  assert (Hsettled : exists v, outcome (run_from (ListSettles :: ticks) start) = Some v).
  { set (s1 := step_from start ListSettles).
    assert (Hph1 : phase s1 = Mapping (fst (pMap ids))).
    { subst s1. unfold Enricher.step. cbn [phase getTokenData]. rewrite Hlist.
      destruct (pMap ids); reflexivity. }
    assert (Harg1 : arg s1 = accountId_param).
    { subst s1. unfold Enricher.step. cbn [phase getTokenData]. rewrite Hlist.
      destruct (pMap ids); reflexivity. }
    destruct (run_ranks ticks s1 _ Harg1 Hph1) as (p' & Hp' & Hall).
    change (run_from (ListSettles :: ticks) start) with (run_from ticks s1).
    pose proof (sync_inv_run remote window_accountId accountId_param ticks s1
                  (sync_inv_step remote window_accountId accountId_param _ _
                     (sync_inv_start remote window_accountId accountId_param)))
      as [_ Hsinv _ _].
    assert (Hfm : failures_marked (run_from ticks s1)).
    { apply failures_run; [exact Harg1|].
      apply failures_step; [reflexivity | exact I]. }
    unfold failures_marked in Hfm. unfold outcome. rewrite Hp' in *.
    destruct Hsinv as (ids' & Hlist' & Hinv & _).
    assert (Hsame : ids' = ids) by congruence. rewrite Hsame in Hinv. clear Hsame Hlist'.
    assert (Hdone : forall i id m, mappers p' !! i = Some (id, m) -> is_settled m = true).
    { intros i id m Hi.
      assert (Hlt : i < length ids).
      { rewrite <- (pmap_inv_length _ _ _ ids p' Hinv). apply (lookup_lt_Some _ _ _ Hi). }
      destruct (lookup_lt_is_Some_2 ids i Hlt) as [id0 Hid0].
      destruct (Hall i id0 AwaitAccount) as (m' & Hm' & Hr').
      { unfold pMap. cbn [fst]. rewrite mappers_next. cbn [mappers].
        rewrite lookup_started, Hid0. reflexivity. }
      rewrite Hi in Hm'. injection Hm' as Hid Hm. subst id0 m'.
      specialize (Hticks i Hlt).
      destruct m as [| |b|d|e]; cbn [rank] in Hr'; try (exfalso; lia); reflexivity. }
    pose proof (Invariant.inv_promise _ _ _ _ _ Hinv) as Hpr.
    destruct (promise p') as [v|] eqn:Hprom; [exists v; reflexivity|].
    exfalso. destruct Hpr as [Hnr Hcnt].
    apply Hcnt. rewrite (Invariant.inv_count _ _ _ _ _ Hinv).
    apply pending_all_fulfilled. intros i id m Hi.
    pose proof (Hdone i id m Hi) as Hs.
    destruct m as [| |b|d|e]; try discriminate; [reflexivity|].
    rewrite (Hfm i id e Hi) in Hnr. discriminate. }
  split; [exact Hsettled|]. split.
  - intros [arr Harr].
    exact (resolved_needs_lookups remote window_accountId accountId_param
             (ListSettles :: ticks) ids arr Hlist Harr).
  - intros Hres.
    destruct (complete_schedule_resolves remote window_accountId accountId_param
                ids ticks Hlist Hres Hticks) as [(recs & Ho & _) _].
    exists (map Some recs). exact Ho.
Qed.

End EnricherSettles.

(** * The mounted component over whole runs *)

Section AppRuns.

Import App.

Variable JSON_parse : string -> option JSON.
Variable window_accountId : option string.
Variable remote : Remote.t.

Local Abbreviation handle_ev := (App.handle JSON_parse window_accountId remote).
Local Abbreviation run_from := (App.run JSON_parse window_accountId remote).
Local Abbreviation resume := (onSubmit_resume JSON_parse window_accountId).
Local Abbreviation mounted := (mount window_accountId).

Lemma run_invariant (I : State -> Prop) :
  (forall st ev, I st -> I (handle_ev st ev)) ->
  forall evs st, I st -> I (run_from evs st).
Proof.
  intros Hstep evs. induction evs as [|ev evs IH]; intros st Hst; [exact Hst|].
  cbn. apply IH. apply Hstep. exact Hst.
Qed.

(** *** What each handler leaves alone *)

Lemma clear_fold_frame (l : list Z) (st : State) :
  let st' := fold_left (fun s _ => clear_notification s) l st in
  tokens st' = tokens st /\ buttonDisabled st' = buttonDisabled st
  /\ fieldset_disabled st' = fieldset_disabled st
  /\ token_value st' = token_value st /\ now st' = now st
  /\ timers st' = timers st /\ submitting st' = submitting st
  /\ contract_calls st' = contract_calls st /\ alerts st' = alerts st
  /\ syncs st' = syncs st /\ uncaught st' = uncaught st.
Proof.
  revert st. induction l as [|d l IH]; intros st; [repeat split|].
  cbn zeta in *. cbn [fold_left].
  destruct (IH (clear_notification st))
    as (H1 & H2 & H3 & H4 & H5 & H6 & H7 & H8 & H9 & H10 & H11).
  rewrite H1, H2, H3, H4, H5, H6, H7, H8, H9, H10, H11. repeat split.
Qed.

Lemma elapse_frame (t : Z) (st : State) :
  tokens (elapse t st) = tokens st
  /\ buttonDisabled (elapse t st) = buttonDisabled st
  /\ fieldset_disabled (elapse t st) = fieldset_disabled st
  /\ token_value (elapse t st) = token_value st
  /\ submitting (elapse t st) = submitting st
  /\ contract_calls (elapse t st) = contract_calls st
  /\ alerts (elapse t st) = alerts st
  /\ syncs (elapse t st) = syncs st
  /\ uncaught (elapse t st) = uncaught st.
Proof.
  unfold elapse.
  destruct (clear_fold_frame (List.filter (fun d => (d <=? t)%Z) (timers st)) st)
    as (H1 & H2 & H3 & H4 & _ & _ & H7 & H8 & H9 & H10 & H11).
  cbn zeta in *. cbn [set_clock tokens buttonDisabled fieldset_disabled token_value
                      submitting contract_calls alerts syncs uncaught].
  repeat split; assumption.
Qed.

Lemma sync_tick_frame (k : nat) (t : Tick) (st : State) :
  let st' := sync_tick window_accountId remote k t st in
  buttonDisabled st' = buttonDisabled st
  /\ showNotification st' = showNotification st
  /\ isFailureNotification st' = isFailureNotification st
  /\ notificationMessage st' = notificationMessage st
  /\ fieldset_disabled st' = fieldset_disabled st
  /\ token_value st' = token_value st /\ now st' = now st
  /\ timers st' = timers st /\ submitting st' = submitting st
  /\ contract_calls st' = contract_calls st /\ alerts st' = alerts st
  /\ length (syncs st') = length (syncs st).
Proof.
  cbn zeta. unfold sync_tick.
  destruct (syncs st !! k) as [s|]; [|repeat split].
  destruct (outcome s) as [v|];
    [|destruct (outcome (Enricher.step remote window_accountId s t)) as [[data|e]|]];
    cbn; rewrite length_insert; repeat split.
Qed.

Lemma resume_finally (o : Settled bool) (st : State) :
  fieldset_disabled (fst (resume o st)) = false
  /\ syncs (fst (resume o st)) = (syncs st ++ [getTokenData window_accountId])%list.
Proof.
  destruct o as [b|e]; [split; reflexivity|].
  unfold onSubmit_resume, catch_block.
  destruct (JSON_parse (message e)) as [j|]; [|split; reflexivity].
  destruct (isNotTokenAccount j) as [[|]|]; split; reflexivity.
Qed.

(** What [onSubmit] does after its [await] to everything but the
    notification, the clock and the alerts. *)
Lemma resume_frame (o : Settled bool) (st : State) :
  let st' := fst (resume o st) in
  tokens st' = tokens st /\ buttonDisabled st' = buttonDisabled st
  /\ token_value st' = token_value st /\ now st' = now st
  /\ submitting st' = submitting st
  /\ contract_calls st' = contract_calls st
  /\ uncaught st' = uncaught st.
Proof.
  cbn zeta. destruct o as [b|e]; [repeat split|].
  unfold onSubmit_resume, catch_block.
  destruct (JSON_parse (message e)) as [j|]; [|repeat split].
  destruct (isNotTokenAccount j) as [[|]|]; repeat split.
Qed.

(** *** The notification and its timers *)

Lemma notification_ok_shown (st st' : State) (msg : string) (f : bool) :
  notification_ok st ->
  now st' = now st ->
  timers st' = (timers st ++ [(now st + 11000)%Z])%list ->
  showNotification st' = true ->
  notification_ok st'.
Proof.
  intros (Hd & _ & _) Hnow Htimers Hshow. unfold notification_ok.
  rewrite Hnow, Htimers, Hshow.
  split; [|split].
  - intros d Hin. apply in_app_iff in Hin. destruct Hin as [Hin|[<-|[]]].
    + apply Hd. exact Hin.
    + lia.
  - intros _ Hnil. destruct (timers st); discriminate.
  - discriminate.
Qed.

Lemma notification_ok_kept (st st' : State) :
  notification_ok st ->
  now st' = now st -> timers st' = timers st ->
  showNotification st' = showNotification st ->
  notificationMessage st' = notificationMessage st ->
  isFailureNotification st' = isFailureNotification st ->
  notification_ok st'.
Proof. unfold notification_ok. intros H -> -> -> -> ->. exact H. Qed.

Lemma notification_ok_resume (o : Settled bool) (st : State) :
  notification_ok st -> notification_ok (fst (resume o st)).
Proof.
  intros Hok. destruct o as [b|e].
  - apply (notification_ok_shown st _ "" false Hok); reflexivity.
  - unfold onSubmit_resume, catch_block.
    destruct (JSON_parse (message e)) as [j|];
      [|apply (notification_ok_kept st _ Hok); reflexivity].
    destruct (isNotTokenAccount j) as [[|]|].
    + apply (notification_ok_shown st _ "" false Hok); reflexivity.
    + apply (notification_ok_kept st _ Hok); reflexivity.
    + apply (notification_ok_kept st _ Hok); reflexivity.
Qed.

Lemma notification_ok_elapse (t : Z) (st : State) :
  notification_ok st -> notification_ok (elapse t st).
Proof.
  intros (Hd & Hshow & Hhid).
  assert (Htimers : timers (elapse t st)
                    = List.filter (fun d => negb (d <=? t)%Z) (timers st)) by reflexivity.
  assert (Hnow : now (elapse t st) = Z.max (now st) t) by reflexivity.
  destruct (List.filter (fun d => (d <=? t)%Z) (timers st)) as [|d0 due] eqn:Hdue.
  - (* nothing is due *)
    assert (Hlate : forall d, In d (timers st) -> (t < d)%Z).
    { intros d Hin. destruct (Z.leb_spec d t) as [Hle|Hlt]; [|exact Hlt].
      assert (Hf : In d (List.filter (fun d => (d <=? t)%Z) (timers st))).
      { apply filter_In. split; [exact Hin | apply Z.leb_le; exact Hle]. }
      rewrite Hdue in Hf. destruct Hf. }
    destruct (elapse_not_due t st Hlate) as [Hrend Hsame].
    assert (Hfields : showNotification (elapse t st) = showNotification st
                      /\ notificationMessage (elapse t st) = notificationMessage st
                      /\ isFailureNotification (elapse t st) = isFailureNotification st).
    { unfold elapse. rewrite Hdue. repeat split. }
    destruct Hfields as (Hs & Hm & Hf). unfold notification_ok.
    rewrite Hsame, Hnow, Hs, Hm, Hf. split; [|split; assumption].
    intros d Hin. specialize (Hd d Hin). specialize (Hlate d Hin). lia.
  - (* some timer fires *)
    assert (Hcleared : showNotification (elapse t st) = false
                       /\ notificationMessage (elapse t st) = ""
                       /\ isFailureNotification (elapse t st) = false).
    { unfold elapse. rewrite Hdue, fold_clear_cons. repeat split. }
    destruct Hcleared as (Hs & Hm & Hf). unfold notification_ok.
    rewrite Htimers, Hnow, Hs, Hm, Hf. split; [|split].
    + intros d Hin. apply filter_In in Hin. destruct Hin as [Hin Hlt].
      specialize (Hd d Hin). apply negb_true_iff, Z.leb_gt in Hlt. lia.
    + discriminate.
    + intros _. split; reflexivity.
Qed.

Lemma notification_ok_handle (st : State) (ev : Event) :
  notification_ok st -> notification_ok (handle_ev st ev).
Proof.
  intros Hok. destruct ev as [v| |o|t|k t]; cbn [handle].
  - apply (notification_ok_kept st _ Hok); reflexivity.
  - apply (notification_ok_kept st _ Hok); reflexivity.
  - destruct (submitting st) as [|n]; [exact Hok|].
    assert (Hset : notification_ok (set_submitting n st))
      by (apply (notification_ok_kept st _ Hok); reflexivity).
    pose proof (notification_ok_resume o _ Hset) as Hres.
    destruct (resume o (set_submitting n st)) as [st1 c]. cbn [fst] in Hres.
    destruct c as [|e]; [exact Hres|].
    apply (notification_ok_kept st1 _ Hres); reflexivity.
  - apply notification_ok_elapse. exact Hok.
  - destruct (sync_tick_frame k t st) as (_ & H2 & H3 & H4 & _ & _ & H7 & H8 & _).
    cbn zeta in *. apply (notification_ok_kept st _ Hok); assumption.
Qed.

(** X8: in every state the mounted component can reach, each pending
    timer is due within 11000 ms, a visible notification always has a timer
    pending, and a hidden one holds no message and no failure flag; so
    11000 ms after any reachable state nothing is shown. *)
Theorem notification_never_outlives_its_window (evs : list Event) :
  let st := run_from evs mounted in
  (forall d, In d (timers st) -> (now st < d)%Z /\ (d <= now st + 11000)%Z)
  /\ (showNotification st = true -> timers st <> [])
  /\ (showNotification st = false ->
      notificationMessage st = "" /\ isFailureNotification st = false)
  /\ rendered_notification (elapse (now st + 11000) st) = None.
Proof.
  cbn zeta.
  assert (Hok : notification_ok (run_from evs mounted)).
  { apply (run_invariant (fun st => notification_ok st)).
    - intros st ev. apply notification_ok_handle.
    - split; [intros d []|]. split; [discriminate|]. intros _. split; reflexivity. }
  destruct Hok as (Hd & Hshow & Hhid).
  split; [exact Hd|]. split; [exact Hshow|]. split; [exact Hhid|].
  destruct (timers (run_from evs mounted)) as [|d ds] eqn:Ht.
  - assert (Hlate : forall d, In d (timers (run_from evs mounted)) ->
                              (now (run_from evs mounted) + 11000 < d)%Z)
      by (rewrite Ht; intros d []).
    destruct (elapse_not_due _ _ Hlate) as [-> _].
    unfold rendered_notification.
    destruct (showNotification (run_from evs mounted)) eqn:Hs; [|reflexivity].
    exfalso. apply Hshow; reflexivity.
  - apply elapse_due. exists d. rewrite Ht. split; [left; reflexivity|].
    apply (proj2 (Hd d (or_introl eq_refl))).
Qed.

(** *** Alert or notification, never both *)

(** X9: [onSubmit] re-raises exactly when it alerted, and then it only
    alerted.  When it throws, [add_token] was rejected, the thrown value is
    that very rejection, exactly one alert was shown and neither the
    notification nor a timer was touched; when it returns, no alert was
    shown.  A resolved [add_token] never alerts or throws. *)
Theorem onSubmit_alerts_exactly_when_it_rethrows (o : Settled bool) (st : State) :
  let '(st', c) := resume o st in
  match c with
  | Returns => alerts st' = alerts st
  | Throws e =>
      o = Rejected e
      /\ alerts st' = (alerts st ++ [alert_message])%list
      /\ timers st' = timers st
      /\ showNotification st' = showNotification st
      /\ notificationMessage st' = notificationMessage st
      /\ isFailureNotification st' = isFailureNotification st
  end.
Proof.
  destruct o as [b|e]; [reflexivity|].
  unfold onSubmit_resume, catch_block.
  destruct (JSON_parse (message e)) as [j|]; [|repeat split].
  destruct (isNotTokenAccount j) as [[|]|]; repeat split.
Qed.

(** *** Submits, calls and re-syncs *)




(** *** The Add button *)

Lemma button_handle (st : State) (ev : Event) :
  (buttonDisabled st = true <-> token_value st = "") ->
  (buttonDisabled (handle_ev st ev) = true <-> token_value (handle_ev st ev) = "").
Proof.
  intros Hb. destruct ev as [v| |o|t|k t]; cbn [handle].
  - cbn. apply length_zero_iff_empty.
  - exact Hb.
  - destruct (submitting st) as [|n]; [exact Hb|].
    destruct (resume_frame o (set_submitting n st)) as (_ & H2 & H3 & _).
    cbn zeta in H2, H3.
    destruct (resume o (set_submitting n st)) as [st1 c]. cbn [fst] in *.
    assert (Hgoal : buttonDisabled st1 = true <-> token_value st1 = "")
      by (rewrite H2, H3; exact Hb).
    destruct c; exact Hgoal.
  - destruct (elapse_frame t st) as (_ & H2 & _ & H4 & _). rewrite H2, H4. exact Hb.
  - destruct (sync_tick_frame k t st) as (H1 & _ & _ & _ & _ & H6 & _).
    cbn zeta in *. rewrite H1, H6. exact Hb.
Qed.

(** X11: the Add button mirrors the input.  In every state the mounted
    component can reach, whatever was submitted or settled in between, the
    button is disabled exactly when the input element is empty. *)
Theorem add_button_mirrors_input (evs : list Event) :
  let st := run_from evs mounted in
  buttonDisabled st = true <-> token_value st = "".
Proof.
  cbn zeta.
  apply (run_invariant (fun st => buttonDisabled st = true <-> token_value st = "")).
  - intros st ev. apply button_handle.
  - split; reflexivity.
Qed.

(** *** The form as the browser drives it *)

Lemma form_ok_handle (st : State) (ev : Event) :
  form_ok st -> Form.allows st ev = true -> form_ok (handle_ev st ev).
Proof.
  intros (Hb & Hle & Hlock & Hcalls) Hallow.
  pose proof (button_handle st ev Hb) as Hb'.
  unfold form_ok. split; [exact Hb'|]. clear Hb'.
  destruct ev as [v| |o|t|k t]; cbn [handle Form.allows] in *.
  - split; [exact Hle|]. split; [exact Hlock | exact Hcalls].
  - apply andb_true_iff in Hallow. destruct Hallow as [Hbtn Hfs].
    apply negb_true_iff in Hbtn, Hfs.
    assert (H0 : submitting st = 0).
    { destruct (submitting st) as [|[|n]]; [reflexivity| |lia].
      destruct Hlock as [_ Hl]. rewrite Hl in Hfs by reflexivity. discriminate. }
    cbn. rewrite H0. split; [lia|]. split; [split; reflexivity|].
    apply Forall_app. split; [exact Hcalls|]. constructor; [|constructor].
    exists (token_value st). split; [reflexivity|].
    intros Hempty. apply Hb in Hempty. congruence.
  - destruct (submitting st) as [|n] eqn:Hsub.
    + rewrite Hsub. split; [lia|]. split; [exact Hlock | exact Hcalls].
    + destruct (resume_frame o (set_submitting n st)) as (_ & _ & _ & _ & H5 & H6 & _).
      destruct (resume_finally o (set_submitting n st)) as [Hfs _].
      cbn zeta in H5, H6.
      destruct (resume o (set_submitting n st)) as [st1 c]. cbn [fst] in *.
      assert (Hgoal : submitting st1 <= 1
                      /\ (fieldset_disabled st1 = true <-> submitting st1 = 1)
                      /\ Forall adds_nonempty (contract_calls st1)).
      { rewrite H5, H6, Hfs. cbn. split; [lia|]. split; [|exact Hcalls].
        split; [discriminate | lia]. }
      destruct c; exact Hgoal.
  - destruct (elapse_frame t st) as (_ & _ & H3 & _ & H5 & H6 & _).
    rewrite H3, H5, H6. split; [exact Hle|]. split; [exact Hlock | exact Hcalls].
  - destruct (sync_tick_frame k t st)
      as (_ & _ & _ & _ & H5 & _ & _ & _ & H9 & H10 & _).
    cbn zeta in *. rewrite H5, H9, H10.
    split; [exact Hle|]. split; [exact Hlock | exact Hcalls].
Qed.

Lemma form_ok_run (evs : list Event) (st : State) :
  form_ok st ->
  Form.driven JSON_parse window_accountId remote evs st = true ->
  form_ok (run_from evs st).
Proof.
  revert st. induction evs as [|ev evs IH]; intros st Hok Hdr; [exact Hok|].
  cbn [Form.driven] in Hdr. apply andb_true_iff in Hdr. destruct Hdr as [Ha Hrest].
  change (run_from (ev :: evs) st) with (run_from evs (handle_ev st ev)).
  apply IH; [apply form_ok_handle; assumption | exact Hrest].
Qed.

(** X12: behind the rendered form the pipeline is safe.  In every run in
    which a submit arrives only while the Add button and the fieldset are
    enabled, and a change only while the fieldset is, no empty identifier
    ever reaches [add_token], at most one submit is in flight, and the
    fieldset is disabled exactly while one is. *)
Theorem driven_form_is_exclusive_and_nonempty (evs : list Event) :
  Form.driven JSON_parse window_accountId remote evs mounted = true ->
  let st := run_from evs mounted in
  Forall adds_nonempty (contract_calls st)
  /\ submitting st <= 1
  /\ (fieldset_disabled st = true <-> submitting st = 1).
Proof.
  intros Hdr. cbn zeta.
  assert (Hok : form_ok (run_from evs mounted)).
  { apply form_ok_run; [|exact Hdr].
    split; [split; reflexivity|]. split; [cbn; lia|].
    split; [split; discriminate | constructor]. }
  destruct Hok as (_ & Hle & Hlock & Hcalls).
  split; [exact Hcalls|]. split; [exact Hle | exact Hlock].
Qed.

(** *** The displayed records *)

Local Abbreviation syncs_ok := (AppInvariant.syncs_ok remote window_accountId).
Local Abbreviation displayed_ok := (AppInvariant.displayed_ok remote window_accountId).

Lemma displayed_handle (st : State) (ev : Event) :
  syncs_ok st /\ displayed_ok (tokens st) ->
  syncs_ok (handle_ev st ev) /\ displayed_ok (tokens (handle_ev st ev)).
Proof.
  intros [Hsy Hdis]. destruct ev as [v| |o|t|k t]; cbn [handle].
  - split; assumption.
  - split; assumption.
  - destruct (submitting st) as [|n]; [split; assumption|].
    destruct (resume_frame o (set_submitting n st)) as (H1 & _).
    destruct (resume_finally o (set_submitting n st)) as [_ Hs].
    cbn zeta in H1.
    destruct (resume o (set_submitting n st)) as [st1 c]. cbn [fst] in *.
    assert (Hgoal : syncs_ok st1 /\ displayed_ok (tokens st1)).
    { rewrite H1. split; [|exact Hdis].
      intros i s Hi. rewrite Hs in Hi. cbn [set_submitting syncs] in Hi.
      apply lookup_app_Some in Hi. destruct Hi as [Hi|[_ Hi]]; [exact (Hsy i s Hi)|].
      exists []. destruct (i - length (syncs st)) as [|j]; [|discriminate].
      cbn in Hi. inversion Hi. reflexivity. }
    destruct c; exact Hgoal.
  - destruct (elapse_frame t st) as (H1 & _ & _ & _ & _ & _ & _ & H8 & _).
    unfold AppInvariant.syncs_ok. rewrite H1, H8. split; assumption.
  - unfold sync_tick. destruct (syncs st !! k) as [s|] eqn:Hk; [|split; assumption].
    destruct (Hsy k s Hk) as [sched Hs].
    set (s' := Enricher.step remote window_accountId s t).
    assert (Hs' : s' = Enricher.run remote window_accountId (sched ++ [t])
                         (getTokenData window_accountId)).
    { subst s'. rewrite Hs. unfold Enricher.run. rewrite fold_left_app. reflexivity. }
    assert (Hsy' : forall st1, syncs st1 = <[k := s']> (syncs st) -> syncs_ok st1).
    { intros st1 Heq i s0 Hi. rewrite Heq in Hi.
      apply list_lookup_insert_Some in Hi.
      destruct Hi as [(_ & <- & _)|[_ Hi]]; [exists (sched ++ [t])%list; exact Hs'|].
      exact (Hsy i s0 Hi). }
    destruct (outcome s) as [v|] eqn:Ho.
    + split; [apply Hsy'; reflexivity | exact Hdis].
    + destruct (outcome s') as [[data|e]|] eqn:Ho'.
      * split; [apply Hsy'; reflexivity|].
        cbn [setTokens tokens]. right.
        rewrite Hs' in Ho'.
        destruct (resolved_in_order remote window_accountId window_accountId _ _ Ho')
          as (ids & recs & H1 & H2 & H3 & H4).
        exists ids, recs. repeat split; assumption.
      * split; [apply Hsy'; reflexivity | exact Hdis].
      * split; [apply Hsy'; reflexivity | exact Hdis].
Qed.

Lemma displayed_run (evs : list Event) :
  displayed_ok (tokens (run_from evs mounted)).
Proof.
  apply (run_invariant (fun st => syncs_ok st /\ displayed_ok (tokens st))).
  - intros st ev. apply displayed_handle.
  - split; [|left; reflexivity].
    intros i s Hi. exists []. destruct i as [|i]; [|discriminate].
    cbn in Hi. inversion Hi. reflexivity.
Qed.

Section Rows.

Variable pow : number -> number -> number.



(** X14: without a viewer every balance cell shows the sentinel.  When
    [window.accountId] is absent or empty, every [Token] element the
    component ever displays renders "-" as its balance. *)
Theorem no_viewer_shows_only_sentinels (evs : list Event) :
  truthy_param window_accountId = false ->
  Forall (fun row => exists key view,
                       row = Some (key, view) /\ TokenView.cell view = Text "-")
    (TokenView.token_list pow (tokens (run_from evs mounted))).
Proof.
  intros Hf. destruct (displayed_run evs) as [->|(ids & recs & _ & -> & _ & Henr)];
    [constructor|].
  clear - Henr Hf. induction Henr as [|r recs [_ Hb] _ IH]; [constructor|].
  rewrite Hf in Hb. cbn. constructor; [|exact IH].
  exists (accountId r), (TokenView.render pow false r). split; [reflexivity|].
  cbn. rewrite Hb. reflexivity.
Qed.

End Rows.

End AppRuns.

(** * Token.tsx and index.tsx *)

Lemma prefix_split (p s : string) :
  String.prefix p s = true -> exists rest, s = p ++ rest.
Proof.
  revert s. induction p as [|a p IH]; intros s H.
  - exists s. reflexivity.
  - destruct s as [|b s]; [discriminate|]. cbn in H.
    destruct (Ascii.ascii_dec a b) as [->|Hne]; [|discriminate].
    destruct (IH s H) as [rest ->]. exists rest. reflexivity.
Qed.

(** X15: the Website row is rendered only for a reference that is there
    and begins with "http", and then it links to that very reference; a
    token without reference, or with one of another scheme, gets no link. *)
Theorem website_row_only_for_http_references
  (pow : number -> number -> number) (isOpen : bool) (data : TokenData) :
  match TokenView.website_row (TokenView.render pow isOpen data) with
  | Some href =>
      reference (metadata data) = Some href /\ exists rest, href = "http" ++ rest
  | None =>
      forall r, reference (metadata data) = Some r ->
                TokenView.startsWith r "http" = false
  end.
Proof.
  cbn [TokenView.render TokenView.website_row]. unfold TokenView.website.
  destruct (reference (metadata data)) as [r|]; [|intros r; discriminate].
  destruct (TokenView.startsWith r "http") eqn:Hp.
  - split; [reflexivity|]. apply prefix_split. exact Hp.
  - intros r' Hr. inversion Hr; subst. exact Hp.
Qed.

(** X16: start-up renders or logs, never both and never neither.  [<App />]
    is rendered exactly when [initContract()] resolved and the #root
    container exists, and then nothing is logged; otherwise exactly one
    error goes to [console.error]: the reason [initContract()] was rejected
    with, or "Unable to find query selector at #root". *)
Theorem start_renders_or_logs_once (init : Settled unit) (container : bool) :
  let b := Index.start init container in
  (Index.rendered b = true <-> (exists u, init = Resolved u) /\ container = true)
  /\ (Index.rendered b = true -> Index.console_errors b = [])
  /\ (Index.rendered b = false ->
      exists e, Index.console_errors b = [e]
                /\ (init = Rejected e
                    \/ ((exists u, init = Resolved u) /\ container = false
                        /\ e = Index.root_not_found))).
Proof.
  cbn zeta. destruct init as [u|e]; [destruct container|]; cbn.
  - split; [split; [intros _; split; [exists u|]; reflexivity | reflexivity]|].
    split; [reflexivity | discriminate].
  - split; [split; [discriminate | intros [_ H]; discriminate]|].
    split; [discriminate|]. intros _. exists Index.root_not_found.
    split; [reflexivity|]. right. split; [exists u; reflexivity|]. split; reflexivity.
  - split; [split; [discriminate | intros [[u H] _]; discriminate]|].
    split; [discriminate|]. intros _. exists e. split; [reflexivity | left; reflexivity].
Qed.

(** * More concrete runs *)

Section MoreRuns.

Import App Samples MoreSamples.


Lemma list_rejection_ends_getTokenData_witness :
  get_tokens remote_down 0 100 = Rejected registry_down
  /\ (let s := Enricher.run remote_down alice [LookupSettles 0; ListSettles; LookupSettles 1]
                 (getTokenData alice) in
      calls s = [Call_get_tokens 0 100]
      /\ (outcome s = None \/ outcome s = Some (Rejected registry_down))
      /\ (In ListSettles [LookupSettles 0; ListSettles; LookupSettles 1] ->
          outcome s = Some (Rejected registry_down))).
Proof.
  split; [reflexivity|].
  apply (list_rejection_ends_getTokenData remote_down alice alice registry_down).
  reflexivity.
Defined.

Lemma getTokenData_resolves_only_if_all_lookups_do_witness :
  get_tokens Samples.remote 0 100 = Resolved ["a.test"; "b.test"]
  /\ (exists arr,
         outcome (Enricher.run Samples.remote alice (ListSettles :: interleaved)
                    (getTokenData alice)) = Some (Resolved arr))
  /\ lookups_resolve Samples.remote alice alice ["a.test"; "b.test"].
Proof.
  assert (H : exists arr,
             outcome (Enricher.run Samples.remote alice (ListSettles :: interleaved)
                        (getTokenData alice)) = Some (Resolved arr))
    by (eexists; vm_compute; reflexivity).
  split; [reflexivity|]. split; [exact H|].
  destruct H as [arr Harr].
  exact (getTokenData_resolves_only_if_all_lookups_do Samples.remote alice alice
           (ListSettles :: interleaved) ["a.test"; "b.test"] arr eq_refl Harr).
Defined.

Lemma getTokenData_rejects_with_a_remote_reason_witness :
  outcome (Enricher.run remote_without_balances alice (ListSettles :: first_second)
             (getTokenData alice))
  = Some (Rejected (mkError "ft_balance_of: method not found"))
  /\ (get_tokens remote_without_balances 0 100
      = Rejected (mkError "ft_balance_of: method not found")
      \/ exists ids id,
           get_tokens remote_without_balances 0 100 = Resolved ids
           /\ In id ids
           /\ rejection_for remote_without_balances alice alice id
                (mkError "ft_balance_of: method not found")).
Proof.
  assert (H : outcome (Enricher.run remote_without_balances alice
                         (ListSettles :: first_second) (getTokenData alice))
              = Some (Rejected (mkError "ft_balance_of: method not found")))
    by (vm_compute; reflexivity).
  split; [exact H|].
  exact (getTokenData_rejects_with_a_remote_reason remote_without_balances alice alice
           (ListSettles :: first_second) _ H).
Defined.

Lemma getTokenData_call_bound_witness :
  get_tokens Samples.remote 0 100 = Resolved ["a.test"; "b.test"]
  /\ length (calls (Enricher.run Samples.remote alice
                      (ListSettles :: interleaved ++ second_first) (getTokenData alice)))
     <= 1 + 2 + 2 * lookups_per_entry alice.
Proof.
  split; [reflexivity|].
  exact (getTokenData_call_bound Samples.remote alice alice
           (ListSettles :: interleaved ++ second_first) ["a.test"; "b.test"] eq_refl).
Defined.

Lemma getTokenData_empty_page_witness :
  get_tokens remote_empty 0 100 = Resolved []
  /\ (let s := Enricher.run remote_empty alice (ListSettles :: second_first)
                 (getTokenData alice) in
      outcome s = Some (Resolved []) /\ calls s = [Call_get_tokens 0 100]).
Proof.
  split; [reflexivity|].
  exact (getTokenData_empty_page remote_empty alice alice second_first eq_refl).
Defined.

Lemma two_submit_events_driven :
  Form.driven Samples.JSON_parse alice Samples.remote two_submit_events (mount alice)
  = true.
Proof. vm_compute. reflexivity. Qed.

Lemma driven_form_is_exclusive_and_nonempty_witness :
  Form.driven Samples.JSON_parse alice Samples.remote two_submit_events (mount alice)
  = true
  /\ (let st := App.run Samples.JSON_parse alice Samples.remote two_submit_events
                  (mount alice) in
      Forall adds_nonempty (contract_calls st)
      /\ submitting st <= 1
      /\ (fieldset_disabled st = true <-> submitting st = 1)).
Proof.
  split; [exact two_submit_events_driven|].
  exact (driven_form_is_exclusive_and_nonempty Samples.JSON_parse alice Samples.remote
           two_submit_events two_submit_events_driven).
Defined.

(** The mount's sync has resolved and two records are displayed. *)
Lemma mount_sync_displays_two_records :
  length (tokens (App.run Samples.JSON_parse None Samples.remote mount_sync_events
                    (mount None))) = 2.
Proof. vm_compute. reflexivity. Qed.

Lemma no_viewer_shows_only_sentinels_witness :
  truthy_param None = false
  /\ Forall (fun row => exists key view,
                          row = Some (key, view) /\ TokenView.cell view = Text "-")
       (TokenView.token_list MoreSamples.pow
          (tokens (App.run Samples.JSON_parse None Samples.remote mount_sync_events
                     (mount None)))).
Proof.
  split; [reflexivity|].
  exact (no_viewer_shows_only_sentinels Samples.JSON_parse None Samples.remote
           MoreSamples.pow mount_sync_events eq_refl).
Defined.

Lemma getTokenData_settles_on_complete_schedules_witness :
  get_tokens remote_without_balances 0 100 = Resolved ["a.test"; "b.test"]
  /\ (let s := Enricher.run remote_without_balances alice (ListSettles :: interleaved)
                 (getTokenData alice) in
      (exists v, outcome s = Some v)
      /\ ((exists arr, outcome s = Some (Resolved arr))
          <-> lookups_resolve remote_without_balances alice alice ["a.test"; "b.test"])).
Proof.
  split; [reflexivity|].
  exact (getTokenData_settles_on_complete_schedules remote_without_balances alice alice
           ["a.test"; "b.test"] interleaved eq_refl interleaved_complete).
Defined.

End MoreRuns.
